(** * Bowyer-Watson Delaunay triangulation and its Voronoi dual

    A shallow embedding of [src/Bowyer/bowyer_watson.py]: the geometric
    primitives of class [Triangle], the incremental insertion loop of
    [BowyerWatson.run], the super-triangle bootstrap and the derivation of
    the Voronoi edges, followed by the properties stated about them.  The
    timers and the [metrics] dictionary of [run] are left out: nothing
    reads them back.

    Numbers.  Every caller builds the sites as a numpy array, so the
    coordinates are IEEE-754 binary64 values and no operation raises (an
    overflow gives an infinity).  Every definition below is written once,
    over the interface [Num] of the arithmetic the source uses, and is run
    on two implementations of it:
    - [binary64]: IEEE-754 double precision, round to nearest even, as
      specified by the Standard Library's [SpecFloat];
    - [exact]: the rationals extended with [+oo], the arithmetic of the
      "finite real coordinates" the data model speaks of.
    An integer coordinate stands for the float of the same value.

    Python's [==] on coordinates is modelled by equality of values.  On
    binary64 this is the behaviour of the source for every value except
    that Python also has [-0.0 == 0.0]; a NaN compared with itself through
    a container is equal there as here (identity shortcut).  [x**2] is
    [x*x].  [sorted] is insertion sort, which is what it does on two and
    three items when the order is total.

    Python's [set] is modelled by a duplicate-free list in insertion order
    and [dict] by an association list in insertion order; the statements
    below are about membership or hold for every order of the list.

    Variants.  [src/bowyer_watson_detailed_steps.py],
    [src/Bowyer/triangulacao.py] and
    [src/Bowyer/bowyer_watson_visualizer.py] repeat the classes of the
    engine with another super-triangle and their own drivers; they are
    modelled after the engine, in the modules [Detailed], [Triangulacao]
    and [Visualizer], from the definitions they share with it. *)

From Stdlib Require Import ZArith QArith Qcanon Floats Lia Lqa.
From stdpp Require Import base decidable list.

Local Open Scope Z_scope.

(** ** The arithmetic interface *)

Class Num (F : Type) := {
  num_eq_dec :: EqDecision F;
  fadd : F -> F -> F;
  fsub : F -> F -> F;
  fmul : F -> F -> F;
  fdiv : F -> F -> F;
  fabs : F -> F;
  flt : F -> F -> bool;          (* Python [<] *)
  of_int : Z -> F;               (* an int literal met by a float *)
  eps : F;                       (* the literal [1e-10] *)
  finf : F                       (* [float('inf')] *)
}.

(** The one law of the order that a statement below relies on. *)
Class NumOrder (F : Type) {NF : Num F} : Prop :=
  flt_irrefl : forall x : F, flt x x = false.

Declare Scope num_scope.
Delimit Scope num_scope with num.
Infix "+" := fadd : num_scope.
Infix "-" := fsub : num_scope.
Infix "*" := fmul : num_scope.
Infix "/" := fdiv : num_scope.
Infix "<?" := flt : num_scope.

(** [x**2] *)
Definition sq {F} `{Num F} (x : F) : F := fmul x x.

(** *** IEEE-754 binary64 *)

Module B64.
Definition t := spec_float.

#[global] Instance spec_float_eq_dec : EqDecision spec_float.
Proof. solve_decision. Defined.

(** A literal is written as a primitive float and read through
    [Prim2SF]. *)
Definition lit (x : PrimFloat.float) : t := Prim2SF x.

Definition of_Z (z : Z) : t := binary_normalize prec emax z 0 false.

(** [1e-10]: the binary64 value nearest to it. *)
Definition eps64 : t := Eval vm_compute in lit 0x1.b7cdfd9d7bdbbp-34%float.

#[global] Instance binary64 : Num t := {|
  fadd := SFadd prec emax;
  fsub := SFsub prec emax;
  fmul := SFmul prec emax;
  fdiv := SFdiv prec emax;
  fabs := SFabs;
  flt := SFltb;
  of_int := of_Z;
  eps := eps64;
  finf := S754_infinity false
|}.
End B64.

(** *** Exact arithmetic: the rationals with a point at infinity

    [Inf] only stands for the [float('inf')] stored as the radius of a
    triangle without circumcenter, which no computation reads.  A division
    by zero would be Python's [ZeroDivisionError]; the source divides by
    [2] and by a [D] with [|D| >= 1e-10] only. *)

Module Exact.
Inductive t := Fin (q : Qc) | Inf.

#[global] Instance Qc_eq_dec' : EqDecision Qc := Qc_eq_dec.
#[global] Instance t_eq_dec : EqDecision t.
Proof. solve_decision. Defined.

Definition lift2 (f : Qc -> Qc -> Qc) (x y : t) : t :=
  match x, y with Fin a, Fin b => Fin (f a b) | _, _ => Inf end.

Definition lt (x y : t) : bool :=
  match x, y with
  | Fin a, Fin b => bool_decide (a < b)%Qc
  | Fin _, Inf => true
  | Inf, _ => false
  end.

Definition abs (x : t) : t :=
  match x with
  | Fin a => Fin (if bool_decide (a < 0)%Qc then (- a)%Qc else a)
  | Inf => Inf
  end.

#[global] Instance exact : Num t := {|
  fadd := lift2 Qcplus;
  fsub := lift2 Qcminus;
  fmul := lift2 Qcmult;
  fdiv := lift2 Qcdiv;
  fabs := abs;
  flt := lt;
  of_int := fun z => Fin (Q2Qc (inject_Z z));
  eps := Fin (Q2Qc (1 # 10000000000));
  finf := Inf
|}.
End Exact.

(** ** Geometric primitives *)

Section Geometry.
Context {F : Type} {NF : Num F}.
Local Open Scope num_scope.

(** [Point = namedtuple('Point', ['x', 'y'])] *)
Record Point := mkPoint { px : F; py : F }.

#[global] Instance Point_eq_dec : EqDecision Point.
Proof. solve_decision. Defined.

(** [Edge = namedtuple('Edge', ['v1', 'v2'])] *)
Record Edge := mkEdge { v1 : Point; v2 : Point }.

#[global] Instance Edge_eq_dec : EqDecision Edge.
Proof. solve_decision. Defined.

(** Tuple comparison [p < q]: the first coordinate that differs
    decides. *)
Definition point_lt (p q : Point) : bool :=
  if decide (px p = px q) then
    if decide (py p = py q) then false else py p <? py q
  else px p <? px q.

(** [sorted] on two and on three items: insertion of each item into the
    sorted prefix, after the items it is not smaller than. *)
Definition sorted2 (a b : Point) : Point * Point :=
  if point_lt b a then (b, a) else (a, b).

Definition sorted3 (a b c : Point) : Point * Point * Point :=
  let '(x, y) := sorted2 a b in
  if point_lt c x then (c, x, y)
  else if point_lt c y then (x, c, y)
  else (x, y, c).

(** [Triangle._calculate_circumcircle] *)
Definition _calculate_circumcircle (vs : Point * Point * Point)
  : option Point * F :=
  let '(p1, p2, p3) := vs in
  let D := of_int 2 * (px p1 * (py p2 - py p3) + px p2 * (py p3 - py p1)
                       + px p3 * (py p1 - py p2)) in
  if fabs D <? eps then (None, finf)
  else
    let p1_sq := sq (px p1) + sq (py p1) in
    let p2_sq := sq (px p2) + sq (py p2) in
    let p3_sq := sq (px p3) + sq (py p3) in
    let ux := (p1_sq * (py p2 - py p3) + p2_sq * (py p3 - py p1)
               + p3_sq * (py p1 - py p2)) / D in
    let uy := (p1_sq * (px p3 - px p2) + p2_sq * (px p1 - px p3)
               + p3_sq * (px p2 - px p1)) / D in
    let center := mkPoint ux uy in
    let radius_sq := sq (px p1 - ux) + sq (py p1 - uy) in
    (Some center, radius_sq).

(** [class Triangle]: the sorted vertices and the circumcircle computed
    from them by the constructor. *)
Record Triangle := {
  vertices : Point * Point * Point;
  circumcenter : option Point;
  circumradius_sq : F
}.

#[global] Instance Triangle_eq_dec : EqDecision Triangle.
Proof. solve_decision. Defined.

Definition mkTriangle (a b c : Point) : Triangle :=
  let vs := sorted3 a b c in
  {| vertices := vs;
     circumcenter := fst (_calculate_circumcircle vs);
     circumradius_sq := snd (_calculate_circumcircle vs) |}.

(** [Triangle.point_in_circumcircle] *)
Definition point_in_circumcircle (t : Triangle) (point : Point) : bool :=
  match circumcenter t with
  | None => false
  | Some c =>
      let dist_sq := sq (px point - px c) + sq (py point - py c) in
      dist_sq <? circumradius_sq t
  end.
End Geometry.

Arguments Point F : clear implicits.
Arguments Edge F : clear implicits.
Arguments Triangle F : clear implicits.

(** ** Exceptions

    The only exception the modelled code can raise is the [ValueError] of
    [min] and [max] on an empty sequence. *)

Inductive PyError := ValueError.

Definition result (A : Type) : Type := PyError + A.
Definition ok {A} (a : A) : result A := inr a.
Definition raise {A} (e : PyError) : result A := inl e.
Definition bind {A B} (m : result A) (k : A -> result B) : result B :=
  match m with inl e => inl e | inr a => k a end.

Declare Scope py_scope.
Delimit Scope py_scope with py.
Notation "x <- m ;; k" := (bind m (fun x => k))
  (at level 100, m at next level, right associativity) : py_scope.


(** ** The Delaunay engine *)

Section Engine.
Context {F : Type} {NF : Num F}.
Local Open Scope num_scope.
Local Open Scope py_scope.

Abbreviation Point := (Point F).
Abbreviation Edge := (Edge F).
Abbreviation Triangle := (Triangle F).

(** *** Sets of triangles
    [Triangle.__eq__] and [__hash__] look at [vertices] only. *)
Definition tri_eqb (a b : Triangle) : bool :=
  bool_decide (vertices a = vertices b).

Definition tri_in (t : Triangle) (s : list Triangle) : bool :=
  existsb (tri_eqb t) s.

(** [s.add(t)] *)
Definition tri_add (t : Triangle) (s : list Triangle) : list Triangle :=
  if tri_in t s then s else s ++ [t].

(** [s -= bad] *)
Definition tri_diff (s bad : list Triangle) : list Triangle :=
  List.filter (fun t => negb (tri_in t bad)) s.

(** *** Sets of edges and of points: equality of the tuples *)
Definition set_add {A} `{EqDecision A} (x : A) (s : list A) : list A :=
  if bool_decide (x ∈ s) then s else s ++ [x].

Definition set_remove {A} `{EqDecision A} (x : A) (s : list A) : list A :=
  List.filter (fun y => negb (bool_decide (y = x))) s.

(** *** The three canonical edges of a triangle
    [vertices[i]], [vertices[(i + 1) % 3]] for [i in range(3)]. *)
Definition vertex (t : Triangle) (i : nat) : Point :=
  let '(a, b, c) := vertices t in
  match i with O => a | S O => b | _ => c end.

Definition vertex_list (t : Triangle) : list Point :=
  let '(a, b, c) := vertices t in [a; b; c].

Definition tri_edge (t : Triangle) (i : nat) : Edge :=
  let '(a, b) := sorted2 (vertex t i) (vertex t (S i mod 3)) in
  mkEdge a b.

Definition tri_edges (t : Triangle) : list Edge :=
  map (tri_edge t) [0; 1; 2]%nat.

(** *** One insertion: the body of [for point in self.points] *)

(** [if edge in polygon_boundary: remove else: add] *)
Definition toggle {A} `{EqDecision A} (pb : list A) (edge : A) : list A :=
  if bool_decide (edge ∈ pb) then set_remove edge pb else pb ++ [edge].

(** [for triangle in self.triangulation: if
    triangle.point_in_circumcircle(point): bad_triangles.add(triangle)] *)
Definition find_bad_triangles (triangulation : list Triangle)
    (point : Point) : list Triangle :=
  fold_left
    (fun bad triangle =>
       if point_in_circumcircle triangle point
       then tri_add triangle bad else bad)
    triangulation [].

(** [for triangle in bad_triangles: for i in range(3): ...]: every edge
    of every bad triangle is toggled in [polygon_boundary]. *)
Definition find_polygon_boundary (bad_triangles : list Triangle)
  : list Edge :=
  fold_left
    (fun pb triangle => fold_left toggle (tri_edges triangle) pb)
    bad_triangles [].

(** [for edge in polygon_boundary:
    self.triangulation.add(Triangle(edge.v1, edge.v2, point))] *)
Definition retriangulate (triangulation : list Triangle)
    (polygon_boundary : list Edge) (point : Point) : list Triangle :=
  fold_left
    (fun tr edge => tri_add (mkTriangle (v1 edge) (v2 edge) point) tr)
    polygon_boundary triangulation.

(** The four steps in turn, [self.triangulation -= bad_triangles] being
    the third. *)
Definition insert_point (triangulation : list Triangle) (point : Point)
  : list Triangle :=
  let bad_triangles := find_bad_triangles triangulation point in
  let polygon_boundary := find_polygon_boundary bad_triangles in
  retriangulate (tri_diff triangulation bad_triangles)
                polygon_boundary point.

(** *** [BowyerWatson._create_super_triangle] *)

(** [min(...)], [max(...)] over a sequence: the first extremal item;
    [ValueError] on an empty one. *)
Definition py_min (l : list F) : result F :=
  match l with
  | [] => raise ValueError
  | x :: xs => ok (fold_left (fun m item => if item <? m then item else m) xs x)
  end.

Definition py_max (l : list F) : result F :=
  match l with
  | [] => raise ValueError
  | x :: xs => ok (fold_left (fun m item => if m <? item then item else m) xs x)
  end.

(** [max(dx, dy)] *)
Definition max2 (a b : F) : F := if a <? b then b else a.

Definition _create_super_triangle (points : list Point)
  : result (Triangle * list Point) :=
  min_x <- py_min (map px points) ;;
  max_x <- py_max (map px points) ;;
  min_y <- py_min (map py points) ;;
  max_y <- py_max (map py points) ;;
  let dx := max_x - min_x in
  let dy := max_y - min_y in
  let delta_max := max2 dx dy in
  let mid_x := (min_x + max_x) / of_int 2 in
  let mid_y := (min_y + max_y) / of_int 2 in
  let v1 := mkPoint (mid_x - of_int 20 * delta_max)
                    (mid_y - of_int 10 * delta_max) in
  let v2 := mkPoint (mid_x + of_int 20 * delta_max)
                    (mid_y - of_int 10 * delta_max) in
  let v3 := mkPoint mid_x (mid_y + of_int 20 * delta_max) in
  ok (mkTriangle v1 v2 v3, set_add v3 (set_add v2 (set_add v1 []))).

(** *** [BowyerWatson._derive_voronoi_diagram] *)

(** [if edge not in d: d[edge] = []] then [d[edge].append(tri)] *)
Fixpoint dict_append (d : list (Edge * list Triangle)) (edge : Edge)
    (tri : Triangle) : list (Edge * list Triangle) :=
  match d with
  | [] => [(edge, [tri])]
  | (e, ts) :: d' =>
      if bool_decide (e = edge) then (e, ts ++ [tri]) :: d'
      else (e, ts) :: dict_append d' edge tri
  end.

(** The first loop: [edge_to_triangles]. *)
Definition build_edge_to_triangles (triangulation : list Triangle)
  : list (Edge * list Triangle) :=
  fold_left
    (fun d tri => fold_left (fun d edge => dict_append d edge tri)
                            (tri_edges tri) d)
    triangulation [].

(** The body of the second loop: what one item of the dictionary
    appends to [voronoi_edges]. *)
Definition emit (triangles : list Triangle) : list (Point * Point) :=
  match triangles with
  | [t0; t1] =>
      match circumcenter t0, circumcenter t1 with
      | Some p1, Some p2 => [(p1, p2)]
      | _, _ => []
      end
  | _ => []
  end.

Definition _derive_voronoi_diagram (triangulation : list Triangle)
  : list (Point * Point) :=
  flat_map (fun item => emit (snd item))
           (build_edge_to_triangles triangulation).

(** *** [BowyerWatson.run] *)

Record BowyerWatson := {
  points : list Point;
  triangulation : list Triangle;
  voronoi_edges : list (Point * Point)
}.

(** [BowyerWatson.__init__] *)
Definition BowyerWatson_init (pts : list (F * F)) : BowyerWatson :=
  {| points := map (fun p => mkPoint (fst p) (snd p)) pts;
     triangulation := [];
     voronoi_edges := [] |}.

(** [any(v in super_vertices for v in tri.vertices)] *)
Definition has_super_vertex (super_vertices : list Point)
    (tri : Triangle) : bool :=
  existsb (fun v => bool_decide (v ∈ super_vertices)) (vertex_list tri).

(** [for point in self.points: ...] *)
Definition insert_all (points : list Point) (start : list Triangle)
  : list Triangle :=
  fold_left insert_point points start.

Definition run (self : BowyerWatson) : result BowyerWatson :=
  st <- _create_super_triangle (points self) ;;
  let '(super_triangle, super_vertices) := st in
  let tr := tri_add super_triangle (triangulation self) in
  let tr := insert_all (points self) tr in
  let tr := List.filter (fun tri => negb (has_super_vertex super_vertices tri)) tr in
  ok {| points := points self;
        triangulation := tr;
        voronoi_edges := voronoi_edges self ++ _derive_voronoi_diagram tr |}.

(** [triangulate(points)]: [BowyerWatson(points)], then [run()], then the
    attribute [triangulation]. *)
Definition triangulate (pts : list (F * F)) : result (list Triangle) :=
  bw <- run (BowyerWatson_init pts) ;; ok (triangulation bw).
End Engine.

Arguments BowyerWatson F : clear implicits.


(** ** The notions the properties are stated in *)

Section Notions.
Context {F : Type} {NF : Num F}.
Local Open Scope num_scope.

Abbreviation Point := (Point F).
Abbreviation Edge := (Edge F).
Abbreviation Triangle := (Triangle F).

(** Squared distance between two points. *)
Definition dist_sq (p c : Point) : F :=
  sq (px p - px c) + sq (py p - py c).



(** *** Cavity boundary by counting *)

(** Number of occurrences of an item in a list. *)
Definition occurrences {A} `{EqDecision A} (x : A) (l : list A) : nat :=
  length (filter (fun y => y = x) l).

(** The items of a list, each once, in order of first occurrence. *)
Definition distinct {A} `{EqDecision A} (l : list A) : list A :=
  fold_left (fun s e => set_add e s) l [].

(** The boundary as the design notes define it: accumulate an edge-count
    mapping, then keep the edges with an odd count. *)
Fixpoint count_bump {A} `{EqDecision A} (m : list (A * nat)) (e : A)
  : list (A * nat) :=
  match m with
  | [] => [(e, 1%nat)]
  | (k, n) :: m' =>
      if bool_decide (k = e) then (k, S n) :: m'
      else (k, n) :: count_bump m' e
  end.

Definition edge_counts {A} `{EqDecision A} (edges : list A)
  : list (A * nat) :=
  fold_left count_bump edges [].

Definition odd_count_edges {A} `{EqDecision A} (edges : list A) : list A :=
  map fst (List.filter (fun kn => Nat.odd (snd kn)) (edge_counts edges)).

Definition boundary_by_counts (bad_triangles : list Triangle) : list Edge :=
  odd_count_edges (flat_map tri_edges bad_triangles).

(** *** Triangulations and their dual *)

(** A well-formed triangulation: every triangle has three distinct
    vertices and no triangle occurs twice. *)
Definition well_formed (T : list Triangle) : Prop :=
  Forall (fun t => NoDup (vertex_list t)) T /\ NoDup (map vertices T).

(** The Delaunay edges of a triangulation, each once, in order of first
    occurrence. *)
Definition delaunay_edges (T : list Triangle) : list Edge :=
  distinct (flat_map tri_edges T).

(** The triangles incident to an edge. *)
Definition incident (e : Edge) (T : list Triangle) : list Triangle :=
  filter (fun t => e ∈ tri_edges t) T.

(** The (edge, triangle) pairs in the order the first loop of
    [_derive_voronoi_diagram] meets them, and the triangles paired with a
    given edge. *)
Definition slots (T : list Triangle) : list (Edge * Triangle) :=
  flat_map (fun t => map (fun e => (e, t)) (tri_edges t)) T.

Definition values_of (e : Edge) (kvs : list (Edge * Triangle))
  : list Triangle :=
  map snd (filter (fun kv => fst kv = e) kvs).

(** The dual as the design of the deriver defines it: an edge with exactly two
    incident triangles whose circumcenters are both present gives one
    Voronoi edge between them; any other edge gives none. *)
Definition voronoi_edge_of (T : list Triangle) (e : Edge)
  : list (Point * Point) :=
  match incident e T with
  | [t1; t2] =>
      match circumcenter t1, circumcenter t2 with
      | Some c1, Some c2 => [(c1, c2)]
      | _, _ => []
      end
  | _ => []
  end.

Definition voronoiDual_spec (T : list Triangle) : list (Point * Point) :=
  flat_map (voronoi_edge_of T) (delaunay_edges T).


(** Interior edges both of whose triangles have a circumcenter. *)
Definition has_center (t : Triangle) : Prop := is_Some (circumcenter t).

Definition dual_edges (T : list Triangle) : list Edge :=
  filter (fun e => length (incident e T) = 2%nat /\
                   Forall has_center (incident e T))
         (delaunay_edges T).

(** *** Containment in a triangle *)




End Notions.

(** ** Points with rational coordinates *)

Section ExactPoints.
Import Exact.
Local Open Scope Qc_scope.

Definition qpoint (q : Qc * Qc) : Point t :=
  mkPoint (Fin (fst q)) (Fin (snd q)).


Definition c2 : Qc := Q2Qc (inject_Z 2).


(** The input [sliver] of the scenarios below and the square, with
    rational coordinates. *)
Definition sliver_exact : list (t * t) :=
  [(Fin (Q2Qc 0), Fin (Q2Qc 0));
   (Fin (Q2Qc (1 # 8192)), Fin (Q2Qc 0));
   (Fin (Q2Qc (1 # 16384)), Fin (Q2Qc (1 # 8388608)));
   (Fin (Q2Qc (1 # 16384)), Fin (Q2Qc (-1 # 128)))].


End ExactPoints.

(** ** Scenarios, on binary64 *)

Module Scenario.
Import B64.

Definition pt (x y : PrimFloat.float) : t * t := (lit x, lit y).
Definition P (x y : PrimFloat.float) : Point t := mkPoint (lit x) (lit y).

(** The square, the three collinear points and the single point. *)
Definition square : list (t * t) := [pt 0 0; pt 2 0; pt 2 2; pt 0 2].
Definition collinear3 : list (t * t) := [pt 0 0; pt 1 0; pt 2 0].


Definition square_lower : Triangle t := mkTriangle (P 0 0) (P 2 0) (P 2 2).
Definition square_upper : Triangle t := mkTriangle (P 0 0) (P 0 2) (P 2 2).
Definition square_output : BowyerWatson t :=
  {| points := [P 0 0; P 2 0; P 2 2; P 0 2];
     triangulation := [square_lower; square_upper];
     voronoi_edges := [(P 1 1, P 1 1)] |}.

End Scenario.

(** ** Triangles as the constructor builds them *)

Section Constructed.
Context {F : Type} {NF : Num F}.

(** A triangle built by [Triangle.__init__] from three of the given
    points. *)
Definition constructed_from (A : list (Point F)) (T : Triangle F) : Prop :=
  exists a b c, T = mkTriangle a b c /\ a ∈ A /\ b ∈ A /\ c ∈ A.

(** A triangle as the constructor builds it. *)
Definition con (T : Triangle F) : Prop := exists a b c, T = mkTriangle a b c.

(** A set of triangles: each built by the constructor, none twice. *)
Definition tri_set (S : list (Triangle F)) : Prop :=
  Forall (fun T => exists a b c, T = mkTriangle a b c) S /\
  NoDup (map vertices S).
End Constructed.


(** ** Iteration order of the sets

    CPython iterates a [set] in an order that the program does not
    control.  The relations below describe an insertion step, and the loop
    over the points, in which every iteration over a set may meet its
    items in any order. *)

Section AnyOrder.
Context {F : Type} {NF : Num F}.

Definition insert_point_any_order
    (S : list (Triangle F)) (p : Point F) (R : list (Triangle F)) : Prop :=
  exists S1 S2 bad pb,
    S1 ≡ₚ S /\ S2 ≡ₚ S /\
    bad ≡ₚ find_bad_triangles S1 p /\
    pb ≡ₚ find_polygon_boundary bad /\
    R ≡ₚ retriangulate (tri_diff S2 bad) pb p.

Inductive insert_all_any_order
  : list (Point F) -> list (Triangle F) -> list (Triangle F) -> Prop :=
| any_order_nil S R :
    R ≡ₚ S -> insert_all_any_order [] S R
| any_order_cons p pts S R R' :
    insert_point_any_order S p R ->
    insert_all_any_order pts R R' ->
    insert_all_any_order (p :: pts) S R'.
End AnyOrder.


(** ** The circumcircle on rational coordinates *)

Section ExactCircle.
Import Exact.
Local Open Scope Qc_scope.


End ExactCircle.

(** ** The variants of the engine

    [bowyer_watson_detailed_steps.py], [Bowyer/triangulacao.py] and
    [Bowyer/bowyer_watson_visualizer.py] each carry their own copy of
    [Point], [Edge] and [Triangle], with the same text as the engine's, and
    their own driver.  What they print or draw is left out; the state they
    compute is modelled. *)

(** *** [bowyer_watson_detailed_steps.py] *)

Module Detailed.
Section Detailed.
Context {F : Type} {NF : Num F}.
Local Open Scope num_scope.
Local Open Scope py_scope.

(** [BowyerWatsonDetailed._create_super_triangle]: the tuple of the three
    vertices and the set of them. *)
Definition _create_super_triangle (points : list (Point F))
  : result (Point F * Point F * Point F * list (Point F)) :=
  min_x <- py_min (map px points) ;;
  max_x <- py_max (map px points) ;;
  min_y <- py_min (map py points) ;;
  max_y <- py_max (map py points) ;;
  let dx := max_x - min_x in
  let dy := max_y - min_y in
  let delta_max := max2 dx dy in
  let mid_x := (min_x + max_x) / of_int 2 in
  let mid_y := (min_y + max_y) / of_int 2 in
  let v1 := mkPoint (mid_x - of_int 2 * delta_max) (mid_y - delta_max) in
  let v2 := mkPoint (mid_x + of_int 2 * delta_max) (mid_y - delta_max) in
  let v3 := mkPoint mid_x (mid_y + of_int 2 * delta_max) in
  ok (v1, v2, v3, set_add v3 (set_add v2 (set_add v1 []))).

Record BowyerWatsonDetailed := {
  points : list (Point F);
  triangulation : list (Triangle F)
}.

(** [BowyerWatsonDetailed.__init__] *)
Definition BowyerWatsonDetailed_init (pts : list (F * F))
  : BowyerWatsonDetailed :=
  {| points := map (fun p => mkPoint (fst p) (snd p)) pts;
     triangulation := [] |}.

(** [BowyerWatsonDetailed.run]: the object as the call leaves it. *)
Definition run (self : BowyerWatsonDetailed) : result BowyerWatsonDetailed :=
  st <- _create_super_triangle (points self) ;;
  let '(v1, v2, v3, super_vertices) := st in
  let tr := tri_add (mkTriangle v1 v2 v3) (triangulation self) in
  let tr := insert_all (points self) tr in
  let tr := List.filter (fun tri => negb (has_super_vertex super_vertices tri))
                        tr in
  ok {| points := points self; triangulation := tr |}.
End Detailed.

Arguments BowyerWatsonDetailed F : clear implicits.
End Detailed.

(** *** [Bowyer/triangulacao.py]

    [BowyerWatsonVisualizer.run] is a generator; the frames it yields are
    copies for drawing and do not change its state.  The model is the
    generator run to exhaustion: the object it leaves, or the exception
    that ends it. *)

Module Triangulacao.

(** The [ValueError] of [min] and [max], and the [AttributeError] of
    [t.circumcenter.x] when [t.circumcenter] is [None]. *)
Inductive Exception := Raised (e : PyError) | AttributeError.

Section Triangulacao.
Context {F : Type} {NF : Num F}.
Local Open Scope num_scope.

Definition bind {A B} (m : Exception + A) (k : A -> Exception + B)
  : Exception + B :=
  match m with inl e => inl e | inr a => k a end.

(** [for t in self.triangulation:] with
    [dist_sq = (point.x - t.circumcenter.x)**2 + ...], no test of the
    circumcenter before. *)
Fixpoint scan (triangulation : list (Triangle F)) (point : Point F)
    (bad_triangles : list (Triangle F)) : Exception + list (Triangle F) :=
  match triangulation with
  | [] => inr bad_triangles
  | t :: rest =>
      match circumcenter t with
      | None => inl AttributeError
      | Some c =>
          let dist_sq := sq (px point - px c) + sq (py point - py c) in
          let is_bad := dist_sq <? circumradius_sq t in
          scan rest point
               (if is_bad then tri_add t bad_triangles else bad_triangles)
      end
  end.

(** [new_triangles = set()], filled from the boundary. *)
Definition new_triangles (polygon_boundary : list (Edge F)) (point : Point F)
  : list (Triangle F) :=
  fold_left
    (fun nt edge => tri_add (mkTriangle (v1 edge) (v2 edge) point) nt)
    polygon_boundary [].

(** [self.triangulation.update(new_triangles)] *)
Definition update (triangulation new : list (Triangle F))
  : list (Triangle F) :=
  fold_left (fun tr t => tri_add t tr) new triangulation.

(** The body of [for i, point in enumerate(self.points)]. *)
Definition insert_point (triangulation : list (Triangle F))
    (point : Point F) : Exception + list (Triangle F) :=
  bind (scan triangulation point []) (fun bad_triangles =>
  let polygon_boundary := find_polygon_boundary bad_triangles in
  let triangulation := tri_diff triangulation bad_triangles in
  inr (update triangulation (new_triangles polygon_boundary point))).

Fixpoint insert_all (points : list (Point F))
    (triangulation : list (Triangle F)) : Exception + list (Triangle F) :=
  match points with
  | [] => inr triangulation
  | point :: rest =>
      bind (insert_point triangulation point) (insert_all rest)
  end.

Record BowyerWatsonVisualizer := {
  points : list (Point F);
  triangulation : list (Triangle F)
}.

(** [BowyerWatsonVisualizer.__init__] *)
Definition BowyerWatsonVisualizer_init (pts : list (F * F))
  : BowyerWatsonVisualizer :=
  {| points := map (fun p => mkPoint (fst p) (snd p)) pts;
     triangulation := [] |}.

(** [BowyerWatsonVisualizer.run], every frame taken.
    [_create_super_triangle] has the text of the one of
    [bowyer_watson_detailed_steps.py]. *)
Definition run (self : BowyerWatsonVisualizer)
  : Exception + BowyerWatsonVisualizer :=
  match Detailed._create_super_triangle (points self) with
  | inl e => inl (Raised e)
  | inr (v1, v2, v3, super_v_set) =>
      let tr := tri_add (mkTriangle v1 v2 v3) (triangulation self) in
      bind (insert_all (points self) tr) (fun tr =>
      let tr := List.filter
                  (fun t => negb (has_super_vertex super_v_set t)) tr in
      inr {| points := points self; triangulation := tr |})
  end.
End Triangulacao.

Arguments BowyerWatsonVisualizer F : clear implicits.
End Triangulacao.

(** *** [Bowyer/bowyer_watson_visualizer.py]

    Again a generator, run to exhaustion; its last frame carries the
    triangulation, the Voronoi vertices and the Voronoi edges. *)

Module Visualizer.
Section Visualizer.
Context {F : Type} {NF : Num F}.

(** [for t in self.triangulation: if t.circumcenter:
    voronoi_vertices.add(t.circumcenter)] *)
Definition find_voronoi_vertices (triangulation : list (Triangle F))
  : list (Point F) :=
  fold_left
    (fun vs t => match circumcenter t with
                 | Some c => set_add c vs
                 | None => vs
                 end)
    triangulation [].

(** [for edge, triangles in edge_to_triangles.items(): ...
    voronoi_edges.add(Edge(t1.circumcenter, t2.circumcenter))] *)
Definition find_voronoi_edges (triangulation : list (Triangle F))
  : list (Edge F) :=
  fold_left
    (fun ves item =>
       match snd item with
       | [t1; t2] =>
           match circumcenter t1, circumcenter t2 with
           | Some c1, Some c2 => set_add (mkEdge c1 c2) ves
           | _, _ => ves
           end
       | _ => ves
       end)
    (build_edge_to_triangles triangulation) [].

Record Frame := {
  points : list (Point F);
  triangulation : list (Triangle F);
  voronoi_vertices : list (Point F);
  voronoi_edges : list (Edge F)
}.

(** [BowyerWatsonVisualizer.run] on [BowyerWatsonVisualizer(pts)]: the last
    frame.  [_create_super_triangle] has the text of the one of
    [bowyer_watson_detailed_steps.py], and the body of the loop over the
    points that of the engine, the bad triangles being collected by a set
    comprehension. *)
Definition run (pts : list (F * F)) : result Frame :=
  let points := map (fun p => mkPoint (fst p) (snd p)) pts in
  bind (Detailed._create_super_triangle points) (fun st =>
  let '(v1, v2, v3, super_v_set) := st in
  let tr := tri_add (mkTriangle v1 v2 v3) [] in
  let tr := insert_all points tr in
  let tr := List.filter (fun t => negb (has_super_vertex super_v_set t)) tr in
  ok {| points := points;
        triangulation := tr;
        voronoi_vertices := find_voronoi_vertices tr;
        voronoi_edges := find_voronoi_edges tr |}).
End Visualizer.

Arguments Frame F : clear implicits.
End Visualizer.

(** ** Further inputs and outputs, for the examples *)

Module Example.
Import B64 Scenario.

(** Three points within [2^-24] of each other, and the super-triangle of
    the engine for them. *)
Definition tiny : list (t * t) := [pt 0 0; pt 0x1p-24 0; pt 0 0x1p-24].
Definition tiny_super_vertices : list (Point t) :=
  [P (-0x27p-25) (-0x13p-25); P 0x29p-25 (-0x13p-25); P 0x1p-25 0x29p-25].
Definition tiny_super : Triangle t :=
  mkTriangle (P (-0x27p-25) (-0x13p-25)) (P 0x29p-25 (-0x13p-25))
             (P 0x1p-25 0x29p-25).

(** The super-triangle of the engine for the square. *)
Definition square_super_vertices : list (Point t) :=
  [P (-39) (-19); P 41 (-19); P 1 41].
Definition square_super : Triangle t :=
  mkTriangle (P (-39) (-19)) (P 41 (-19)) (P 1 41).

(** Three collinear points as a triangle. *)
Definition flat : Triangle t := mkTriangle (P 0 0) (P 1 0) (P 2 0).


Definition square_visualized : Triangulacao.BowyerWatsonVisualizer t :=
  {| Triangulacao.points := [P 0 0; P 2 0; P 2 2; P 0 2];
     Triangulacao.triangulation := [square_lower; square_upper] |}.

End Example.

Module ExactExample.
Import Exact.


End ExactExample.


(** * Properties *)

(** ** The order of the two arithmetics is irreflexive *)

#[global] Instance binary64_order : NumOrder B64.t.
Proof.
  intros x. change (SFltb x x = false). unfold SFltb, SFcompare.
  destruct x as [s|s| |s m e]; try (destruct s; reflexivity); try reflexivity.
  rewrite Z.compare_refl, Pos.compare_refl.
  destruct s; reflexivity.
Qed.

#[global] Instance exact_order : NumOrder Exact.t.
Proof.
  intros [q|]; simpl; [|reflexivity].
  apply bool_decide_eq_false. intros Hq. exact (Qclt_not_le _ _ Hq (Qcle_refl q)).
Qed.

(** ** Geometric primitives *)

Section PrimitiveProperties.
Context {F : Type} {NF : Num F}.
Local Open Scope num_scope.

(** C3.  With [D = 2 (p1.x (p2.y - p3.y) + p2.x (p3.y - p1.y) + p3.x (p1.y
    - p2.y))], the circumcircle computation returns an absent center and
    the radius [+oo] exactly when [|D| < 1e-10]; otherwise it returns the
    center [(ux, uy)] of the squared-coordinate-sums formula and the squared
    distance from [p1] to it. *)
Theorem calculate_circumcircle_spec (p1 p2 p3 : Point F) :
  let D := of_int 2 * (px p1 * (py p2 - py p3) + px p2 * (py p3 - py p1)
                       + px p3 * (py p1 - py p2)) in
  let p1_sq := px p1 * px p1 + py p1 * py p1 in
  let p2_sq := px p2 * px p2 + py p2 * py p2 in
  let p3_sq := px p3 * px p3 + py p3 * py p3 in
  let ux := (p1_sq * (py p2 - py p3) + p2_sq * (py p3 - py p1)
             + p3_sq * (py p1 - py p2)) / D in
  let uy := (p1_sq * (px p3 - px p2) + p2_sq * (px p1 - px p3)
             + p3_sq * (px p2 - px p1)) / D in
  let r := _calculate_circumcircle (p1, p2, p3) in
  (r = (None, finf) <-> (fabs D <? eps) = true) /\
  (fst r = None <-> (fabs D <? eps) = true) /\
  ((fabs D <? eps) = false ->
   r = (Some (mkPoint ux uy), dist_sq p1 (mkPoint ux uy))).
Proof.
  cbv zeta. unfold _calculate_circumcircle, dist_sq, sq. simpl.
  destruct (fabs _ <? eps) eqn:E; simpl.
  - repeat split; auto; discriminate.
  - repeat split; auto; discriminate.
Qed.

(** C4.  The point-in-circumcircle predicate is false whenever the
    circumcenter is absent; otherwise it is true exactly when the squared
    distance from the query point to the circumcenter is strictly less
    than the squared circumradius, so that a point exactly on the circle is
    reported as not inside. *)
Theorem point_in_circumcircle_spec {NO : NumOrder F}
    (t : Triangle F) (point : Point F) :
  (circumcenter t = None -> point_in_circumcircle t point = false) /\
  (forall c, circumcenter t = Some c ->
     (point_in_circumcircle t point = true <->
      (dist_sq point c <? circumradius_sq t) = true) /\
     (dist_sq point c = circumradius_sq t ->
      point_in_circumcircle t point = false)).
Proof.
  unfold point_in_circumcircle, dist_sq. split.
  - intros ->. reflexivity.
  - intros c ->. split; [reflexivity|].
    intros ->. apply flt_irrefl.
Qed.

End PrimitiveProperties.

(** ** Lists as sets *)

Section ListSets.
Context {A : Type} `{EqDecision A}.
Implicit Types (x y : A) (s l : list A).

Lemma elem_of_set_add x y s : y ∈ set_add x s <-> y = x \/ y ∈ s.
Proof.
  unfold set_add. case_bool_decide as Hx.
  - split; [auto | intros [->|]; auto].
  - rewrite elem_of_app, list_elem_of_singleton. tauto.
Qed.

Lemma NoDup_set_add x s : NoDup s -> NoDup (set_add x s).
Proof.
  intros Hs. unfold set_add. case_bool_decide as Hx; [done|].
  apply NoDup_app. split_and!; [done| |apply NoDup_singleton].
  intros z Hz ->%list_elem_of_singleton. done.
Qed.

Lemma elem_of_set_remove x y s : y ∈ set_remove x s <-> y ∈ s /\ y <> x.
Proof.
  unfold set_remove. rewrite !list_elem_of_In, filter_In, negb_true_iff,
    bool_decide_eq_false. tauto.
Qed.

Lemma NoDup_set_remove x s : NoDup s -> NoDup (set_remove x s).
Proof.
  unfold set_remove. rewrite !NoDup_ListNoDup. apply List.NoDup_filter.
Qed.

Lemma elem_of_toggle s x y :
  y ∈ toggle s x <-> (y ∈ s /\ y <> x) \/ (y = x /\ x ∉ s).
Proof.
  unfold toggle. case_bool_decide as Hx.
  - rewrite elem_of_set_remove. tauto.
  - rewrite elem_of_app, list_elem_of_singleton.
    split; [intros [Hy| ->]|intros [[Hy Hn]|[-> _]]]; auto.
    left. split; [done|]. intros ->. done.
Qed.

Lemma NoDup_toggle s x : NoDup s -> NoDup (toggle s x).
Proof.
  intros Hs. unfold toggle. case_bool_decide as Hx.
  - by apply NoDup_set_remove.
  - apply NoDup_app. split_and!; [done| |apply NoDup_singleton].
    intros z Hz ->%list_elem_of_singleton. done.
Qed.

Lemma occurrences_nil x : occurrences x [] = 0%nat.
Proof. reflexivity. Qed.

Lemma occurrences_cons x y l :
  occurrences x (y :: l) =
  ((if bool_decide (y = x) then 1 else 0) + occurrences x l)%nat.
Proof.
  unfold occurrences. rewrite filter_cons.
  destruct (decide (y = x)); case_bool_decide; done.
Qed.

Lemma occurrences_app x l1 l2 :
  occurrences x (l1 ++ l2) = (occurrences x l1 + occurrences x l2)%nat.
Proof. unfold occurrences. by rewrite filter_app, length_app. Qed.

Lemma occurrences_zero x l : occurrences x l = 0%nat <-> x ∉ l.
Proof.
  induction l as [|y l IH].
  { split; [intros _; apply not_elem_of_nil | done]. }
  rewrite occurrences_cons, not_elem_of_cons.
  case_bool_decide as Hy; simpl.
  - subst. split; [lia | intros [Hn _]; by destruct Hn].
  - rewrite IH. split; [intros Hl; split; [congruence|done] | tauto].
Qed.

(** Toggling the items of a list one after the other keeps exactly the
    items whose membership has been flipped an odd number of times. *)
Lemma bool_decide_toggle s x y :
  bool_decide (y ∈ toggle s x)
  = xorb (bool_decide (y ∈ s)) (bool_decide (x = y)).
Proof.
  apply eq_true_iff_eq. rewrite bool_decide_eq_true, elem_of_toggle.
  destruct (decide (x = y)) as [->|Hxy].
  - rewrite (bool_decide_eq_true_2 (y = y)) by done.
    destruct (decide (y ∈ s)) as [Hy|Hy].
    + rewrite (bool_decide_eq_true_2 _ Hy). simpl.
      split; [intros [[_ Hn]|[_ Hn]]; done | done].
    + rewrite (bool_decide_eq_false_2 _ Hy). simpl. split; auto.
  - rewrite (bool_decide_eq_false_2 (x = y)) by done.
    rewrite xorb_false_r, bool_decide_eq_true.
    split; [intros [[Hy _]|[-> _]]; done|]. intros Hy. left. split; [done|].
    intros ->. done.
Qed.

(** Toggling the items of a list one after the other keeps exactly the
    items whose membership has been flipped an odd number of times. *)
Lemma fold_toggle_parity l s y :
  y ∈ fold_left toggle l s <->
  xorb (bool_decide (y ∈ s)) (Nat.odd (occurrences y l)) = true.
Proof.
  revert s. induction l as [|x l IH]; intros s; simpl.
  - rewrite occurrences_nil, xorb_false_r, bool_decide_eq_true. tauto.
  - rewrite IH, occurrences_cons, bool_decide_toggle. clear IH.
    destruct (bool_decide (x = y)); simpl.
    + rewrite Nat.odd_succ, <- Nat.negb_odd.
      destruct (bool_decide (y ∈ s)), (Nat.odd _); simpl; tauto.
    + by rewrite xorb_false_r.
Qed.

Lemma NoDup_fold_toggle l s : NoDup s -> NoDup (fold_left toggle l s).
Proof.
  revert s. induction l as [|x l IH]; intros s Hs; simpl; [done|].
  by apply IH, NoDup_toggle.
Qed.

Lemma elem_of_distinct_acc l s y :
  y ∈ fold_left (fun s e => set_add e s) l s <-> y ∈ s \/ y ∈ l.
Proof.
  revert s. induction l as [|x l IH]; intros s; simpl.
  - rewrite elem_of_nil. tauto.
  - rewrite IH, elem_of_set_add, elem_of_cons. tauto.
Qed.

Lemma elem_of_distinct l y : y ∈ distinct l <-> y ∈ l.
Proof.
  unfold distinct. rewrite elem_of_distinct_acc, elem_of_nil. tauto.
Qed.

Lemma NoDup_distinct l : NoDup (distinct l).
Proof.
  unfold distinct. generalize (NoDup_nil_2 (A:=A)).
  generalize (@nil A). induction l as [|x l IH]; intros s Hs; simpl; [done|].
  by apply IH, NoDup_set_add.
Qed.

Lemma distinct_snoc l x : distinct (l ++ [x]) = set_add x (distinct l).
Proof. unfold distinct. by rewrite fold_left_app. Qed.
End ListSets.

(** ** Cavity boundary: toggling against counting *)

Section Counting.
Context {A : Type} `{EqDecision A}.
Implicit Types (x y : A) (l D : list A).

Lemma count_bump_absent (f : A -> nat) D x :
  x ∉ D ->
  count_bump (map (fun k => (k, f k)) D) x
  = map (fun k => (k, f k)) D ++ [(x, 1%nat)].
Proof.
  induction D as [|k D IH]; intros Hx; simpl; [done|].
  apply not_elem_of_cons in Hx as [Hk HD].
  rewrite bool_decide_eq_false_2 by congruence.
  by rewrite IH.
Qed.

Lemma count_bump_present (f : A -> nat) D x :
  NoDup D -> x ∈ D ->
  count_bump (map (fun k => (k, f k)) D) x
  = map (fun k => (k, if bool_decide (k = x) then S (f k) else f k)) D.
Proof.
  induction D as [|k D IH]; intros HD Hx; simpl.
  { by apply elem_of_nil in Hx. }
  apply NoDup_cons in HD as [Hk HD].
  destruct (decide (k = x)) as [->|Hkx].
  - rewrite !bool_decide_eq_true_2 by done. f_equal.
    apply map_ext_in. intros k Hin%list_elem_of_In.
    rewrite bool_decide_eq_false_2; [done|]. intros ->. done.
  - rewrite !bool_decide_eq_false_2 by done. f_equal.
    apply IH; [done|]. apply elem_of_cons in Hx as [->|]; done.
Qed.

Lemma edge_counts_distinct l :
  edge_counts l = map (fun k => (k, occurrences k l)) (distinct l).
Proof.
  induction l as [|x l IH] using rev_ind; [done|].
  unfold edge_counts in *. rewrite fold_left_app. simpl. rewrite IH.
  rewrite distinct_snoc. unfold set_add. case_bool_decide as Hx.
  - rewrite count_bump_present by (done || apply NoDup_distinct).
    apply map_ext. intros k. f_equal.
    rewrite occurrences_app, occurrences_cons, occurrences_nil.
    rewrite (bool_decide_ext (x = k) (k = x)) by done.
    case_bool_decide; lia.
  - rewrite count_bump_absent by done. rewrite map_app. simpl.
    assert (occurrences x l = 0%nat) as Hz.
    { apply occurrences_zero. by rewrite <- elem_of_distinct. }
    f_equal.
    + apply map_ext_in. intros k Hin%list_elem_of_In. f_equal.
      rewrite occurrences_app, occurrences_cons, occurrences_nil.
      rewrite bool_decide_eq_false_2; [lia|]. intros ->. done.
    + rewrite occurrences_app, occurrences_cons, occurrences_nil, Hz.
      by rewrite bool_decide_eq_true_2.
Qed.

Lemma elem_of_odd_count_edges l y :
  y ∈ odd_count_edges l <-> Nat.odd (occurrences y l) = true.
Proof.
  unfold odd_count_edges. rewrite edge_counts_distinct.
  rewrite list_elem_of_In, in_map_iff. split.
  - intros ([k n] & <- & Hin). apply filter_In in Hin as [Hin Hodd].
    apply in_map_iff in Hin as (k' & [= <- <-] & _). exact Hodd.
  - intros Hodd. exists (y, occurrences y l). split; [done|].
    apply filter_In. split; [|done]. apply in_map_iff. exists y.
    split; [done|]. apply list_elem_of_In, elem_of_distinct.
    destruct (decide (y ∈ l)) as [|Hn]; [done|].
    apply occurrences_zero in Hn. rewrite Hn in Hodd. discriminate.
Qed.

Lemma NoDup_odd_count_edges l : NoDup (odd_count_edges l).
Proof.
  unfold odd_count_edges. rewrite edge_counts_distinct.
  pose proof (NoDup_distinct l) as HD. revert HD.
  generalize (distinct l) as D. induction D as [|k D IH]; intros HD; simpl.
  { apply NoDup_nil_2. }
  apply NoDup_cons in HD as [Hk HD]. destruct (Nat.odd _); simpl; [|auto].
  apply NoDup_cons. split; [|auto].
  rewrite list_elem_of_In, in_map_iff. intros ([k' n] & Hk' & Hin).
  simpl in Hk'. subst k'. apply filter_In in Hin as [Hin _].
  apply in_map_iff in Hin as (k' & [= <- _] & Hin). by apply list_elem_of_In in Hin.
Qed.
End Counting.

Section Boundary.
Context {F : Type} {NF : Num F}.

Lemma find_polygon_boundary_flat (bad : list (Triangle F)) :
  find_polygon_boundary bad = fold_left toggle (flat_map tri_edges bad) [].
Proof.
  unfold find_polygon_boundary. generalize (@nil (Edge F)) as s.
  induction bad as [|t bad IH]; intros s; [done|].
  change (flat_map tri_edges (t :: bad))
    with (tri_edges t ++ flat_map tri_edges bad).
  rewrite fold_left_app. cbn [fold_left]. apply IH.
Qed.

(** C5.  For every list of bad triangles, in whatever order they are
    processed, the set obtained by toggling the three canonical edges of
    each (insert when absent, remove when present) is the set of the edges
    that occur an odd number of times among the bad triangles' edges: it
    has the same members as the accumulate-counts-then-filter-odd
    definition. *)
Theorem toggle_boundary_is_odd_count (bad_triangles : list (Triangle F)) :
  NoDup (find_polygon_boundary bad_triangles) /\
  NoDup (boundary_by_counts bad_triangles) /\
  forall e : Edge F,
    (e ∈ find_polygon_boundary bad_triangles <->
     Nat.odd (occurrences e (flat_map tri_edges bad_triangles)) = true) /\
    (e ∈ find_polygon_boundary bad_triangles <->
     e ∈ boundary_by_counts bad_triangles).
Proof.
  rewrite find_polygon_boundary_flat. unfold boundary_by_counts.
  split; [apply NoDup_fold_toggle, NoDup_nil_2|].
  split; [apply NoDup_odd_count_edges|].
  intros e. rewrite elem_of_odd_count_edges, fold_toggle_parity.
  rewrite bool_decide_eq_false_2 by apply not_elem_of_nil. simpl. tauto.
Qed.
End Boundary.

(** ** The Voronoi dual *)

Section Dual.
Context {F : Type} {NF : Num F}.
Implicit Types (t : Triangle F) (T : list (Triangle F)) (e : Edge F).

Lemma fold_dict_append_one_triangle t (es : list (Edge F)) d :
  fold_left (fun d e => dict_append d e t) es d
  = fold_left (fun d kv => dict_append d (fst kv) (snd kv))
              (map (fun e => (e, t)) es) d.
Proof. revert d. induction es as [|e es IH]; intros d; [done|]. apply IH. Qed.

Lemma build_edge_to_triangles_slots T :
  build_edge_to_triangles T
  = fold_left (fun d kv => dict_append d (fst kv) (snd kv)) (slots T) [].
Proof.
  unfold build_edge_to_triangles, slots.
  generalize (@nil (Edge F * list (Triangle F))) as d.
  induction T as [|t T IH]; intros d; [done|].
  cbn [flat_map fold_left].
  by rewrite fold_left_app, IH, fold_dict_append_one_triangle.
Qed.

Lemma dict_append_absent (f : Edge F -> list (Triangle F)) D e t :
  e ∉ D ->
  dict_append (map (fun k => (k, f k)) D) e t
  = map (fun k => (k, f k)) D ++ [(e, [t])].
Proof.
  induction D as [|k D IH]; intros He; simpl; [done|].
  apply not_elem_of_cons in He as [Hk HD].
  rewrite bool_decide_eq_false_2 by congruence.
  by rewrite IH.
Qed.

Lemma dict_append_present (f : Edge F -> list (Triangle F)) D e t :
  NoDup D -> e ∈ D ->
  dict_append (map (fun k => (k, f k)) D) e t
  = map (fun k => (k, if bool_decide (k = e) then f k ++ [t] else f k)) D.
Proof.
  induction D as [|k D IH]; intros HD He; simpl.
  { by apply elem_of_nil in He. }
  apply NoDup_cons in HD as [Hk HD].
  destruct (decide (k = e)) as [->|Hke].
  - rewrite !bool_decide_eq_true_2 by done. f_equal.
    apply map_ext_in. intros k Hin%list_elem_of_In.
    rewrite bool_decide_eq_false_2; [done|]. intros ->. done.
  - rewrite !bool_decide_eq_false_2 by done. f_equal.
    apply IH; [done|]. apply elem_of_cons in He as [->|]; done.
Qed.

Lemma values_of_snoc k kvs e t :
  values_of k (kvs ++ [(e, t)])
  = values_of k kvs ++ (if bool_decide (e = k) then [t] else []).
Proof.
  unfold values_of. rewrite filter_app, map_app. f_equal.
  rewrite filter_cons. simpl. destruct (decide (e = k)); case_bool_decide; done.
Qed.

Lemma values_of_absent k kvs : k ∉ map fst kvs -> values_of k kvs = [].
Proof.
  unfold values_of. induction kvs as [|[e t] kvs IH]; simpl; [done|].
  intros [Hk Hn]%not_elem_of_cons. rewrite filter_cons. simpl.
  destruct (decide (e = k)); [congruence|auto].
Qed.

(** The dictionary built by the first loop: its keys are the distinct
    edges in order of first occurrence, each bound to the triangles met
    with that edge. *)
Lemma fold_dict_append (kvs : list (Edge F * Triangle F)) :
  fold_left (fun d kv => dict_append d (fst kv) (snd kv)) kvs []
  = map (fun k => (k, values_of k kvs)) (distinct (map fst kvs)).
Proof.
  induction kvs as [|[e t] kvs IH] using rev_ind; [done|].
  rewrite fold_left_app. simpl. rewrite IH, map_app. simpl.
  rewrite distinct_snoc. unfold set_add. case_bool_decide as He.
  - rewrite dict_append_present by (done || apply NoDup_distinct).
    apply map_ext. intros k. f_equal. rewrite values_of_snoc.
    rewrite (bool_decide_ext (e = k) (k = e)) by done.
    case_bool_decide; [done|by rewrite app_nil_r].
  - rewrite dict_append_absent by done. rewrite map_app. simpl. f_equal.
    + apply map_ext_in. intros k Hin%list_elem_of_In. f_equal.
      rewrite values_of_snoc, bool_decide_eq_false_2, app_nil_r; [done|].
      intros ->. done.
    + rewrite values_of_snoc, bool_decide_eq_true_2 by done.
      rewrite values_of_absent; [done|]. by rewrite <- elem_of_distinct.
Qed.

Lemma map_fst_pair_with t (es : list (Edge F)) :
  map fst (map (fun e => (e, t)) es) = es.
Proof. induction es as [|e es IH]; [done|]. simpl. by rewrite IH. Qed.

Lemma map_fst_slots T : map fst (slots T) = flat_map tri_edges T.
Proof.
  unfold slots. induction T as [|t T IH]; [done|].
  cbn [flat_map]. by rewrite map_app, IH, map_fst_pair_with.
Qed.

Lemma sorted2_cases (a b : Point F) :
  sorted2 a b = (a, b) \/ sorted2 a b = (b, a).
Proof. unfold sorted2. destruct (point_lt b a); auto. Qed.

Lemma tri_edge_cases (x y : Point F) e :
  (let '(a, b) := sorted2 x y in mkEdge a b) = e ->
  e = mkEdge x y \/ e = mkEdge y x.
Proof. destruct (sorted2_cases x y) as [-> | ->]; intros <-; auto. Qed.

Lemma NoDup_tri_edges t : NoDup (vertex_list t) -> NoDup (tri_edges t).
Proof.
  unfold vertex_list, tri_edges, tri_edge, vertex. simpl.
  destruct (vertices t) as [[a b] c]. intros Hnd.
  apply NoDup_cons in Hnd as [Ha Hnd]. apply NoDup_cons in Hnd as [Hb _].
  apply not_elem_of_cons in Ha as [Hab Ha].
  apply not_elem_of_cons in Ha as [Hac _].
  apply not_elem_of_cons in Hb as [Hbc _].
  destruct (tri_edge_cases a b _ eq_refl) as [E0|E0];
  destruct (tri_edge_cases b c _ eq_refl) as [E1|E1];
  destruct (tri_edge_cases c a _ eq_refl) as [E2|E2];
  rewrite E0, E1, E2;
  repeat (apply NoDup_cons; split; [rewrite ?not_elem_of_cons; repeat split;
     try apply not_elem_of_nil; intros Heq; injection Heq; intros;
     congruence|]);
  apply NoDup_nil_2.
Qed.

Lemma values_of_one_triangle e t (es : list (Edge F)) :
  NoDup es ->
  values_of e (map (fun e' => (e', t)) es)
  = if bool_decide (e ∈ es) then [t] else [].
Proof.
  unfold values_of. induction es as [|k es IH]; intros Hnd; simpl; [done|].
  apply NoDup_cons in Hnd as [Hk Hnd]. rewrite filter_cons. simpl.
  destruct (decide (k = e)) as [->|Hke]; simpl.
  - rewrite bool_decide_eq_true_2 by (apply elem_of_cons; auto).
    rewrite IH by done. by rewrite bool_decide_eq_false_2.
  - rewrite IH by done. apply (f_equal (fun b : bool => if b then [t] else [])).
    apply bool_decide_ext. rewrite elem_of_cons.
    split; [tauto | intros [Heq|]; [congruence|done]].
Qed.

Lemma values_of_slots e T :
  Forall (fun t => NoDup (vertex_list t)) T ->
  values_of e (slots T) = incident e T.
Proof.
  unfold incident. induction 1 as [|t T Ht HT IH]; [done|].
  unfold slots. cbn [flat_map]. fold (slots T).
  unfold values_of in *. rewrite filter_app, map_app, IH.
  fold (values_of e (map (fun e' => (e', t)) (tri_edges t))).
  rewrite values_of_one_triangle by by apply NoDup_tri_edges.
  rewrite filter_cons. destruct (decide (e ∈ tri_edges t));
    case_bool_decide; done.
Qed.

Lemma emit_voronoi_edge_of T e :
  emit (incident e T) = voronoi_edge_of T e.
Proof. reflexivity. Qed.

(** The derivation computes the dual as the design describes it. *)
Lemma derive_voronoi_refines T :
  Forall (fun t => NoDup (vertex_list t)) T ->
  _derive_voronoi_diagram T = voronoiDual_spec T.
Proof.
  intros Hwf. unfold _derive_voronoi_diagram, voronoiDual_spec, delaunay_edges.
  rewrite build_edge_to_triangles_slots, fold_dict_append, map_fst_slots.
  rewrite flat_map_concat_map, map_map, <- flat_map_concat_map. simpl.
  apply flat_map_ext. intros e. rewrite values_of_slots by done. reflexivity.
Qed.
End Dual.

Section DualProperties.
Context {F : Type} {NF : Num F}.
Implicit Types (t : Triangle F) (T : list (Triangle F)) (e : Edge F).

Lemma voronoi_edge_of_dual T e :
  length (incident e T) = 2%nat /\ Forall has_center (incident e T) ->
  exists t1 t2 c1 c2,
    incident e T = [t1; t2] /\ circumcenter t1 = Some c1 /\
    circumcenter t2 = Some c2 /\ voronoi_edge_of T e = [(c1, c2)].
Proof.
  unfold voronoi_edge_of. intros [Hlen Hc].
  destruct (incident e T) as [|t1 [|t2 [|? ?]]]; try discriminate.
  apply Forall_cons in Hc as [[c1 H1] Hc].
  apply Forall_cons in Hc as [[c2 H2] _].
  exists t1, t2, c1, c2. by rewrite H1, H2.
Qed.

Lemma voronoi_edge_of_not_dual T e :
  ~ (length (incident e T) = 2%nat /\ Forall has_center (incident e T)) ->
  voronoi_edge_of T e = [].
Proof.
  unfold voronoi_edge_of. intros Hn.
  destruct (incident e T) as [|t1 [|t2 [|? ?]]]; try done.
  destruct (circumcenter t1) as [c1|] eqn:H1; [|done].
  destruct (circumcenter t2) as [c2|] eqn:H2; [|done].
  destruct Hn. split; [done|].
  repeat (apply Forall_cons; split); try apply Forall_nil_2;
    unfold has_center; rewrite ?H1, ?H2; eauto.
Qed.

Lemma length_voronoiDual_spec T :
  length (voronoiDual_spec T) = length (dual_edges T).
Proof.
  unfold voronoiDual_spec, dual_edges.
  induction (delaunay_edges T) as [|e D IH]; [done|].
  cbn [flat_map]. rewrite length_app, IH, filter_cons.
  destruct (decide _) as [Hd|Hd].
  - destruct (voronoi_edge_of_dual T e Hd) as (?&?&?&?&_&_&_&->). done.
  - by rewrite voronoi_edge_of_not_dual.
Qed.

Lemma elem_of_voronoiDual_spec T p1 p2 :
  (p1, p2) ∈ voronoiDual_spec T <->
  exists e t1 t2, e ∈ dual_edges T /\ incident e T = [t1; t2] /\
                  circumcenter t1 = Some p1 /\ circumcenter t2 = Some p2.
Proof.
  unfold voronoiDual_spec, dual_edges.
  rewrite list_elem_of_In, in_flat_map. split.
  - intros (e & He%list_elem_of_In & Hin).
    destruct (decide (length (incident e T) = 2%nat /\
                      Forall has_center (incident e T))) as [Hd|Hd].
    + destruct (voronoi_edge_of_dual T e Hd) as (t1&t2&c1&c2&Hi&H1&H2&Hv).
      rewrite Hv in Hin. destruct Hin as [[= <- <-]|[]].
      exists e, t1, t2. split_and!; try done.
      by apply list_elem_of_filter.
    + rewrite voronoi_edge_of_not_dual in Hin by done. destruct Hin.
  - intros (e & t1 & t2 & [Hd He]%list_elem_of_filter & Hi & H1 & H2).
    exists e. split; [by apply list_elem_of_In|].
    unfold voronoi_edge_of. rewrite Hi, H1, H2. by left.
Qed.


End DualProperties.

(** ** The insertion loop *)

Section Insertion.
Context {F : Type} {NF : Num F}.
Implicit Types (t : Triangle F) (S : list (Triangle F)) (Q P : Point F).

Lemma elem_of_tri_add t x S : t ∈ tri_add x S -> t = x \/ t ∈ S.
Proof.
  unfold tri_add. destruct (tri_in x S); [auto|].
  rewrite elem_of_app, list_elem_of_singleton. tauto.
Qed.

Lemma tri_in_elem_of t S : t ∈ S -> tri_in t S = true.
Proof.
  intros Ht. unfold tri_in. apply existsb_exists. exists t.
  split; [by apply list_elem_of_In|]. by apply bool_decide_eq_true_2.
Qed.

Lemma tri_in_tri_add t x S :
  tri_in t S = true \/ t = x -> tri_in t (tri_add x S) = true.
Proof.
  unfold tri_add. destruct (tri_in x S) eqn:Hx; intros [Ht| ->]; try done.
  - unfold tri_in in *. rewrite existsb_app, Ht. done.
  - unfold tri_in. rewrite existsb_app. simpl.
    unfold tri_eqb. rewrite bool_decide_eq_true_2 by done.
    by rewrite orb_true_r.
Qed.

Lemma elem_of_tri_diff t S bad :
  t ∈ tri_diff S bad -> t ∈ S /\ tri_in t bad = false.
Proof.
  unfold tri_diff. rewrite !list_elem_of_In, filter_In, negb_true_iff. tauto.
Qed.

Lemma find_bad_triangles_complete S Q t :
  t ∈ S -> point_in_circumcircle t Q = true ->
  tri_in t (find_bad_triangles S Q) = true.
Proof.
  unfold find_bad_triangles.
  assert (forall S bad, tri_in t bad = true ->
    tri_in t (fold_left (fun bad triangle =>
        if point_in_circumcircle triangle Q
        then tri_add triangle bad else bad) S bad) = true) as Hmono.
  { clear. induction S as [|x S IH]; intros bad Hb; simpl; [done|].
    apply IH. destruct (point_in_circumcircle x Q); [|done].
    apply tri_in_tri_add. auto. }
  generalize (@nil (Triangle F)) as bad.
  induction S as [|x S IH]; intros bad Ht Hin; simpl.
  { by apply elem_of_nil in Ht. }
  apply elem_of_cons in Ht as [->|Ht]; [|by apply IH].
  rewrite Hin. apply Hmono, tri_in_tri_add. auto.
Qed.







Lemma run_inversion (self bw : BowyerWatson F) :
  run self = ok bw ->
  exists super_triangle super_vertices,
    _create_super_triangle (points self) = ok (super_triangle, super_vertices)
    /\ points bw = points self
    /\ triangulation bw =
       List.filter (fun tri => negb (has_super_vertex super_vertices tri))
         (insert_all (points self)
            (tri_add super_triangle (triangulation self)))
    /\ voronoi_edges bw =
       voronoi_edges self ++ _derive_voronoi_diagram (triangulation bw).
Proof.
  unfold run, bind. destruct (_create_super_triangle _) as [e|[st sv]];
    [discriminate|].
  intros [= <-]. exists st, sv. split_and!; reflexivity.
Qed.

End Insertion.

(** ** The super-triangle, in exact arithmetic *)

Section ExactSuper.
Import Exact.
Local Open Scope Qc_scope.
Implicit Types (x y m : Qc) (xs : list Qc).











Lemma Fin_eq_Qeq x y : Fin x = Fin y -> (this x == this y)%Q.
Proof. intros [= ->]. reflexivity. Qed.











End ExactSuper.

(** ** Runs on binary64 *)

Section Scenarios.
Import B64 Scenario.

Lemma run_square : run (BowyerWatson_init square) = ok square_output.
Proof. vm_compute. reflexivity. Qed.


Lemma run_collinear3 :
  run (BowyerWatson_init collinear3)
  = ok {| points := [P 0 0; P 1 0; P 2 0];
          triangulation := []; voronoi_edges := [] |}.
Proof. vm_compute. reflexivity. Qed.

Lemma well_formed_square : well_formed (triangulation square_output).
Proof. apply (bool_decide_unpack _). vm_compute. exact I. Qed.


Ltac by_computation := apply (bool_decide_unpack _); vm_compute; exact I.


(** The same violation in exact arithmetic: it does not come from
    rounding. *)
Lemma delaunay_violation_exact :
  exists bw T Q,
    run (BowyerWatson_init sliver_exact) = ok bw /\
    T ∈ triangulation bw /\ Q ∈ points bw /\ (Q ∉ vertex_list T) /\
    point_in_circumcircle T Q = true.
Proof.
  destruct (run (BowyerWatson_init sliver_exact)) as [e|bw] eqn:E;
    [vm_compute in E; discriminate E|].
  exists bw.
  exists (mkTriangle (qpoint (Q2Qc 0, Q2Qc 0))
                     (qpoint (Q2Qc (1 # 8192), Q2Qc 0))
                     (qpoint (Q2Qc (1 # 16384), Q2Qc (-1 # 128)))).
  exists (qpoint (Q2Qc (1 # 16384), Q2Qc (1 # 8388608))).
  split; [reflexivity|].
  assert (Some bw = match run (BowyerWatson_init sliver_exact) with
                    | inl _ => None | inr b => Some b end) as Hbw
    by (by rewrite E).
  vm_compute in Hbw. injection Hbw as ->.
  split_and!; by_computation.
Qed.



Lemma point_in_circumcircle_spec_witness :
  (circumcenter square_lower = None ->
   point_in_circumcircle square_lower (P 0 2) = false) /\
  (forall c, circumcenter square_lower = Some c ->
     (point_in_circumcircle square_lower (P 0 2) = true <->
      flt (dist_sq (P 0 2) c) (circumradius_sq square_lower) = true) /\
     (dist_sq (P 0 2) c = circumradius_sq square_lower ->
      point_in_circumcircle square_lower (P 0 2) = false)).
Proof.
  exact (point_in_circumcircle_spec (NO:=binary64_order)
           square_lower (P 0 2)).
Defined.





(** C9.  On the square [(0,0), (2,0), (2,2), (0,2)] the run completes with
    exactly two triangles, which share the diagonal from [(0,0)] to
    [(2,2)], and with exactly one Voronoi edge, which joins the
    circumcenters of the two triangles. *)
Theorem square_scenario :
  exists bw t1 t2 c1 c2,
    run (BowyerWatson_init square) = ok bw /\
    triangulation bw = [t1; t2] /\
    vertex_list t1 = [P 0 0; P 2 0; P 2 2] /\
    vertex_list t2 = [P 0 0; P 0 2; P 2 2] /\
    mkEdge (P 0 0) (P 2 2) ∈ tri_edges t1 /\
    mkEdge (P 0 0) (P 2 2) ∈ tri_edges t2 /\
    incident (mkEdge (P 0 0) (P 2 2)) (triangulation bw) = [t1; t2] /\
    circumcenter t1 = Some c1 /\ circumcenter t2 = Some c2 /\
    voronoi_edges bw = [(c1, c2)] /\
    _derive_voronoi_diagram (triangulation bw) = [(c1, c2)].
Proof.
  exists square_output, square_lower, square_upper, (P 1 1), (P 1 1).
  split; [exact run_square|].
  split_and!; try by_computation; vm_compute; reflexivity.
Qed.

(** C10.  There is a well-formed output triangulation, that of the square,
    for which the derivation emits a Voronoi edge whose two endpoints are
    the same point: edges of length zero are not filtered out. *)
Theorem degenerate_voronoi_edge :
  exists bw p,
    run (BowyerWatson_init square) = ok bw /\
    well_formed (triangulation bw) /\
    (p, p) ∈ _derive_voronoi_diagram (triangulation bw) /\
    (p, p) ∈ voronoi_edges bw.
Proof.
  exists square_output, (P 1 1). split; [exact run_square|].
  split; [exact well_formed_square|].
  split; by_computation.
Qed.
End Scenarios.

(** ** Failure of a run *)

Section Failure.
Context {F : Type} {NF : Num F}.


End Failure.


(** ** What a run keeps and what it never returns *)

Section RunInvariants.
Context {F : Type} {NF : Num F}.
Implicit Types (t T : Triangle F) (S : list (Triangle F)) (p Q : Point F)
  (A : list (Point F)).

Lemma sorted3_perm (a b c : Point F) :
  let '(x, y, z) := sorted3 a b c in [x; y; z] ≡ₚ [a; b; c].
Proof.
  unfold sorted3, sorted2.
  destruct (point_lt b a), (point_lt c b), (point_lt c a); solve_Permutation.
Qed.

Lemma vertex_list_mkTriangle (a b c : Point F) :
  vertex_list (mkTriangle a b c) ≡ₚ [a; b; c].
Proof.
  unfold vertex_list, mkTriangle. cbn [vertices].
  pose proof (sorted3_perm a b c) as H.
  by destruct (sorted3 a b c) as [[x y] z].
Qed.

Lemma tri_edge_endpoints t e :
  e ∈ tri_edges t -> v1 e ∈ vertex_list t /\ v2 e ∈ vertex_list t.
Proof.
  unfold tri_edges. cbn [map]. rewrite !elem_of_cons, elem_of_nil.
  unfold tri_edge, vertex, vertex_list.
  destruct (vertices t) as [[a b] c]. cbn [Nat.modulo Nat.divmod fst snd Nat.sub].
  intros [E|[E|[E|[]]]]; symmetry in E;
    apply tri_edge_cases in E as [-> | ->]; cbn [v1 v2];
    rewrite !elem_of_cons; tauto.
Qed.

Lemma elem_of_find_bad_triangles S p t :
  t ∈ find_bad_triangles S p -> t ∈ S /\ point_in_circumcircle t p = true.
Proof.
  unfold find_bad_triangles.
  assert (forall bad,
    t ∈ fold_left (fun bad triangle =>
        if point_in_circumcircle triangle p
        then tri_add triangle bad else bad) S bad ->
    t ∈ bad \/ (t ∈ S /\ point_in_circumcircle t p = true)) as H.
  { induction S as [|x S IH]; intros bad; simpl; [auto|].
    intros [Ht|[Ht ?]]%IH; [|rewrite elem_of_cons; auto].
    destruct (point_in_circumcircle x p) eqn:Hx; [|auto].
    apply elem_of_tri_add in Ht as [->|Ht]; [|auto].
    right. split; [apply elem_of_cons; auto|done]. }
  intros [Ht|Ht]%H; [by apply elem_of_nil in Ht|done].
Qed.

Lemma elem_of_find_polygon_boundary (bad : list (Triangle F)) (e : Edge F) :
  e ∈ find_polygon_boundary bad -> exists t, t ∈ bad /\ e ∈ tri_edges t.
Proof.
  rewrite find_polygon_boundary_flat, fold_toggle_parity.
  rewrite bool_decide_eq_false_2 by apply not_elem_of_nil. simpl.
  intros Hodd.
  destruct (decide (e ∈ flat_map tri_edges bad)) as [Hin|Hn].
  - apply list_elem_of_In, in_flat_map in Hin as (t & Ht & He).
    exists t. by rewrite !list_elem_of_In.
  - apply occurrences_zero in Hn. rewrite Hn in Hodd. discriminate.
Qed.

Lemma constructed_from_mono A A' T :
  (forall v, v ∈ A -> v ∈ A') -> constructed_from A T -> constructed_from A' T.
Proof. intros HA (a & b & c & -> & ? & ? & ?). exists a, b, c. auto. Qed.

Lemma constructed_from_vertices A T v :
  constructed_from A T -> v ∈ vertex_list T -> v ∈ A.
Proof.
  intros (a & b & c & -> & Ha & Hb & Hc). rewrite vertex_list_mkTriangle.
  rewrite !elem_of_cons, elem_of_nil. intros [->|[->|[->|[]]]]; done.
Qed.

Lemma elem_of_retriangulate_edge S (pb : list (Edge F)) p t :
  t ∈ retriangulate S pb p ->
  t ∈ S \/ exists e, e ∈ pb /\ t = mkTriangle (v1 e) (v2 e) p.
Proof.
  unfold retriangulate. revert S.
  induction pb as [|e pb IH]; intros S; simpl; [auto|].
  intros [Ht|(e' & He' & ->)]%IH.
  - apply elem_of_tri_add in Ht as [->|Ht]; [|auto].
    right. exists e. split; [apply elem_of_cons; auto|done].
  - right. exists e'. split; [apply elem_of_cons; auto|done].
Qed.

Lemma insert_point_constructed A S p :
  (forall T, T ∈ S -> constructed_from A T) ->
  forall T, T ∈ insert_point S p -> constructed_from (A ++ [p]) T.
Proof.
  intros HS T [HT|(e & He & ->)]%elem_of_retriangulate_edge.
  - apply elem_of_tri_diff in HT as [HT _].
    eapply constructed_from_mono; [|by apply HS].
    intros v Hv. apply elem_of_app. auto.
  - apply elem_of_find_polygon_boundary in He as (t & Ht & He).
    apply elem_of_find_bad_triangles in Ht as [Ht _].
    apply tri_edge_endpoints in He as [H1 H2].
    exists (v1 e), (v2 e), p. split; [done|].
    split_and!; rewrite elem_of_app, ?list_elem_of_singleton;
      eauto using constructed_from_vertices.
Qed.

Lemma insert_all_constructed pts A S :
  (forall T, T ∈ S -> constructed_from A T) ->
  forall T, T ∈ insert_all pts S -> constructed_from (A ++ pts) T.
Proof.
  unfold insert_all. revert A S.
  induction pts as [|p pts IH]; intros A S HS; simpl.
  - by rewrite app_nil_r.
  - rewrite (app_assoc A [p] pts : A ++ p :: pts = _).
    by apply IH, insert_point_constructed.
Qed.

Lemma create_super_triangle_inversion (points : list (Point F)) st sv :
  _create_super_triangle points = ok (st, sv) ->
  exists a b c, st = mkTriangle a b c /\ forall v, v ∈ sv <-> v ∈ [a; b; c].
Proof.
  unfold _create_super_triangle, bind.
  destruct (py_min (map px points)); [discriminate|].
  destruct (py_max (map px points)); [discriminate|].
  destruct (py_min (map py points)); [discriminate|].
  destruct (py_max (map py points)); [discriminate|].
  intros [= <- <-]. eexists _, _, _. split; [reflexivity|].
  intros v. rewrite !elem_of_set_add, !elem_of_cons, elem_of_nil. tauto.
Qed.

Lemma has_super_vertex_false sv T v :
  has_super_vertex sv T = false -> v ∈ vertex_list T -> v ∉ sv.
Proof.
  unfold has_super_vertex. intros Hex Hv Hsv.
  assert (existsb (fun v => bool_decide (v ∈ sv)) (vertex_list T) = true)
    as Ht; [|congruence].
  apply existsb_exists. exists v. split; [by apply list_elem_of_In|].
  by apply bool_decide_eq_true_2.
Qed.

(** X1.  No vertex of the super-triangle is a vertex of an output
    triangle. *)
Theorem no_super_vertex_in_output
    (pts : list (F * F)) (bw : BowyerWatson F) st sv T v :
  run (BowyerWatson_init pts) = ok bw ->
  _create_super_triangle (points bw) = ok (st, sv) ->
  T ∈ triangulation bw -> v ∈ vertex_list T ->
  (v ∉ sv) /\ (v ∉ vertex_list st).
Proof.
  intros (st' & sv' & Hst & Hpts & Htri & _)%run_inversion Hst2 HT Hv.
  rewrite Hpts, Hst in Hst2. injection Hst2 as <- <-.
  rewrite Htri in HT. apply list_elem_of_In, filter_In in HT as [_ HT].
  apply negb_true_iff in HT.
  pose proof (has_super_vertex_false _ _ _ HT Hv) as Hn. split; [done|].
  apply create_super_triangle_inversion in Hst as (a & b & c & -> & Hsv).
  rewrite vertex_list_mkTriangle. by rewrite <- Hsv.
Qed.

(** X2.  Every output triangle is the triangle that the constructor
    builds from three input points: its vertices are input points and its
    circumcenter and squared circumradius are those computed from its
    vertices. *)
Theorem output_triangles_from_input
    (pts : list (F * F)) (bw : BowyerWatson F) T :
  run (BowyerWatson_init pts) = ok bw ->
  T ∈ triangulation bw ->
  (exists a b c, T = mkTriangle a b c /\
                 a ∈ points bw /\ b ∈ points bw /\ c ∈ points bw) /\
  (forall v, v ∈ vertex_list T -> v ∈ points bw) /\
  (circumcenter T, circumradius_sq T) = _calculate_circumcircle (vertices T).
Proof.
  intros (st & sv & Hst & Hpts & Htri & _)%run_inversion HT.
  rewrite Htri in HT. apply list_elem_of_In, filter_In in HT as [HT Hsv].
  apply list_elem_of_In in HT. apply negb_true_iff in Hsv.
  pose proof Hst as (a0 & b0 & c0 & -> & Hin)%create_super_triangle_inversion.
  assert (constructed_from (sv ++ points (BowyerWatson_init pts)) T)
    as (a & b & c & -> & Ha & Hb & Hc).
  { apply (insert_all_constructed _ _ (tri_add (mkTriangle a0 b0 c0) []));
      [|done].
    intros T' [->|HT']%elem_of_tri_add; [|by apply elem_of_nil in HT'].
    exists a0, b0, c0. split; [done|].
    rewrite !Hin, !elem_of_cons. tauto. }
  assert (forall v, v ∈ [a; b; c] -> v ∈ points bw) as Hall.
  { intros v Hv.
    assert (v ∈ sv ++ points (BowyerWatson_init pts)) as Hv'.
    { revert Hv. rewrite !elem_of_cons, elem_of_nil.
      intros [->|[->|[->|[]]]]; done. }
    apply elem_of_app in Hv' as [Hv'|Hv']; [|by rewrite Hpts].
    destruct (has_super_vertex_false _ _ v Hsv); [|done].
    by rewrite vertex_list_mkTriangle. }
  split_and!.
  - exists a, b, c. split; [done|].
    split_and!; apply Hall; rewrite !elem_of_cons; auto.
  - intros v Hv. apply Hall. by rewrite <- vertex_list_mkTriangle.
  - unfold mkTriangle. cbn [circumcenter circumradius_sq vertices].
    by destruct (_calculate_circumcircle _).
Qed.
End RunInvariants.


(** ** Points that are dropped *)

Section Dropped.
Context {F : Type} {NF : Num F}.
Implicit Types (t T : Triangle F) (S : list (Triangle F)) (p : Point F).

Lemma find_bad_triangles_none S p :
  (forall t, t ∈ S -> point_in_circumcircle t p = false) ->
  find_bad_triangles S p = [].
Proof.
  unfold find_bad_triangles. intros Hall.
  enough (forall bad,
    fold_left (fun bad triangle =>
        if point_in_circumcircle triangle p
        then tri_add triangle bad else bad) S bad = bad) as H by apply H.
  induction S as [|x S IH]; intros bad; simpl; [done|].
  rewrite (Hall x) by (apply elem_of_cons; auto).
  apply IH. intros t Ht. apply Hall, elem_of_cons. auto.
Qed.

Lemma tri_diff_nil S : tri_diff S [] = S.
Proof.
  unfold tri_diff. induction S as [|x S IH]; [done|].
  cbn [List.filter]. change (tri_in x []) with false. cbn [negb].
  by rewrite IH.
Qed.

Lemma insert_point_unchanged S p :
  (forall t, t ∈ S -> point_in_circumcircle t p = false) ->
  insert_point S p = S.
Proof.
  intros Hall. unfold insert_point. rewrite find_bad_triangles_none by done.
  by rewrite tri_diff_nil.
Qed.

(** X3.  A point that is strictly inside no circumcircle of the current
    triangulation is dropped: no triangle is bad, the cavity has no
    boundary, and the insertion leaves the triangulation as it is, so that
    the point becomes a vertex of no triangle. *)
Theorem insert_point_without_bad_triangle S p :
  (forall t, t ∈ S -> point_in_circumcircle t p = false) ->
  find_bad_triangles S p = [] /\
  find_polygon_boundary (find_bad_triangles S p) = [] /\
  insert_point S p = S.
Proof.
  intros Hall. split_and!.
  - by apply find_bad_triangles_none.
  - by rewrite find_bad_triangles_none.
  - by apply insert_point_unchanged.
Qed.

Lemma insert_all_without_circumcenter pts S :
  (forall t, t ∈ S -> circumcenter t = None) -> insert_all pts S = S.
Proof.
  intros Hall. unfold insert_all. induction pts as [|p pts IH]; [done|].
  simpl. rewrite insert_point_unchanged; [done|].
  intros t Ht. unfold point_in_circumcircle. by rewrite (Hall t Ht).
Qed.

Lemma run_degenerate (pts : list (F * F)) st sv :
  _create_super_triangle (points (BowyerWatson_init pts)) = ok (st, sv) ->
  circumcenter st = None ->
  run (BowyerWatson_init pts)
  = ok {| points := points (BowyerWatson_init pts);
          triangulation := []; voronoi_edges := [] |}.
Proof.
  intros Hst Hnone.
  assert (has_super_vertex sv st = true) as Hs.
  { pose proof Hst as (a & b & c & -> & Hsv)%create_super_triangle_inversion.
    unfold has_super_vertex. apply existsb_exists.
    pose proof (vertex_list_mkTriangle a b c) as Hp.
    destruct (vertex_list (mkTriangle a b c)) as [|v l] eqn:E.
    { apply Permutation_length in Hp. discriminate. }
    exists v. split; [by left|]. apply bool_decide_eq_true_2, Hsv.
    rewrite <- Hp. apply elem_of_cons. auto. }
  destruct (run (BowyerWatson_init pts)) as [e|bw] eqn:E.
  { unfold run in E. rewrite Hst in E. discriminate E. }
  apply run_inversion in E as (st' & sv' & Hst' & Hpts & Htri & Hvor).
  rewrite Hst in Hst'. injection Hst' as <- <-.
  cbn [triangulation voronoi_edges BowyerWatson_init] in Htri, Hvor.
  change (tri_add st []) with [st] in Htri.
  rewrite insert_all_without_circumcenter in Htri.
  2:{ intros t ->%list_elem_of_singleton. done. }
  cbn [List.filter] in Htri. rewrite Hs in Htri. cbn [negb] in Htri.
  rewrite Htri in Hvor. destruct bw as [bp bt bv].
  cbn [points triangulation voronoi_edges] in *. by subst.
Qed.

(** X4.  When the super-triangle has no circumcenter ([|D| < 1e-10]: the
    points coincide or their bounding box is tiny), no point is inserted:
    the loop leaves the super-triangle alone, and the run completes with
    an empty triangulation and no Voronoi edge, whatever the input. *)
Theorem run_with_degenerate_super_triangle
    (pts : list (F * F)) st sv :
  _create_super_triangle (points (BowyerWatson_init pts)) = ok (st, sv) ->
  circumcenter st = None ->
  insert_all (points (BowyerWatson_init pts)) [st] = [st] /\
  triangulate pts = ok [] /\
  run (BowyerWatson_init pts)
  = ok {| points := points (BowyerWatson_init pts);
          triangulation := []; voronoi_edges := [] |}.
Proof.
  intros Hst Hc. pose proof (run_degenerate pts st sv Hst Hc) as Hrun.
  split_and!; [|by unfold triangulate; rewrite Hrun|done].
  apply insert_all_without_circumcenter.
  intros t Ht. apply list_elem_of_singleton in Ht. by subst.
Qed.
End Dropped.


(** ** The triangulation does not depend on the iteration order *)

Section OrderIndependence.
Context {F : Type} {NF : Num F}.
Implicit Types (t T x : Triangle F) (S R bad : list (Triangle F))
  (p : Point F) (pb : list (Edge F)).

Lemma con_eq t t' : con t -> con t' -> vertices t = vertices t' -> t = t'.
Proof.
  intros (a & b & c & ->) (a' & b' & c' & ->). unfold mkTriangle.
  cbn [vertices]. by intros ->.
Qed.

Lemma tri_in_true t S : tri_in t S = true <-> exists x, x ∈ S /\ vertices t = vertices x.
Proof.
  unfold tri_in, tri_eqb. rewrite existsb_exists. split.
  - intros (x & Hx & E). exists x. by rewrite list_elem_of_In, <- (bool_decide_eq_true _).
  - intros (x & Hx & E). exists x. by rewrite <- list_elem_of_In, bool_decide_eq_true.
Qed.

Lemma tri_in_con t S : Forall con S -> con t -> tri_in t S = true <-> t ∈ S.
Proof.
  intros HS Ht. rewrite tri_in_true. split.
  - intros (x & Hx & E). rewrite Forall_forall in HS.
    by rewrite (con_eq t x Ht (HS x Hx) E).
  - intros Hin. by exists t.
Qed.

Lemma tri_in_key t S : tri_in t S = true <-> vertices t ∈ map vertices S.
Proof.
  rewrite tri_in_true, list_elem_of_fmap. split.
  - intros (x & Hx & E). by exists x.
  - intros (x & E & Hx). by exists x.
Qed.

Lemma tri_set_NoDup S : tri_set S -> NoDup S.
Proof. intros [_ H]. by apply NoDup_fmap_1 in H. Qed.

Lemma tri_set_perm S S' : S ≡ₚ S' -> tri_set S -> tri_set S'.
Proof. intros HP [H1 H2]. split; by rewrite <- HP. Qed.

Lemma tri_set_tri_add x S : con x -> tri_set S -> tri_set (tri_add x S).
Proof.
  intros Hx [Hc Hn]. unfold tri_add. destruct (tri_in x S) eqn:E; [done|].
  split.
  - apply Forall_app. split; [done|]. by apply Forall_singleton.
  - rewrite map_app. apply NoDup_app. split_and!; [done| |apply NoDup_singleton].
    intros k Hk ->%list_elem_of_singleton.
    apply tri_in_key in Hk. congruence.
Qed.

Lemma tri_set_nil : tri_set (@nil (Triangle F)).
Proof. split; [apply Forall_nil_2|apply NoDup_nil_2]. Qed.

Lemma elem_of_tri_add_iff x S t :
  Forall con S -> con x -> t ∈ tri_add x S <-> t = x \/ t ∈ S.
Proof.
  intros HS Hx. split; [apply elem_of_tri_add|].
  unfold tri_add. destruct (tri_in x S) eqn:E.
  - intros [->|Ht]; [|done]. by apply tri_in_con in E.
  - rewrite elem_of_app, list_elem_of_singleton. tauto.
Qed.

(** *** The three loops, one by one *)

Lemma tri_set_find_bad_acc S p bad :
  Forall con S -> tri_set bad ->
  tri_set (fold_left (fun bad triangle =>
              if point_in_circumcircle triangle p
              then tri_add triangle bad else bad) S bad).
Proof.
  revert bad. induction S as [|x S IH]; intros bad HS Hb; simpl; [done|].
  apply Forall_cons in HS as [Hx HS]. apply IH; [done|].
  destruct (point_in_circumcircle x p); [by apply tri_set_tri_add|done].
Qed.

Lemma tri_set_find_bad S p : tri_set S -> tri_set (find_bad_triangles S p).
Proof. intros [HS _]. apply tri_set_find_bad_acc; [done|apply tri_set_nil]. Qed.

Lemma elem_of_find_bad_iff S p t :
  tri_set S ->
  t ∈ find_bad_triangles S p <-> t ∈ S /\ point_in_circumcircle t p = true.
Proof.
  intros HS. split; [apply elem_of_find_bad_triangles|].
  intros [Ht Hin]. pose proof (tri_set_find_bad S p HS) as [Hc _].
  destruct HS as [HS _]. apply tri_in_con; [done| |].
  - rewrite Forall_forall in HS. by apply HS.
  - by apply find_bad_triangles_complete.
Qed.

Lemma tri_set_tri_diff S bad : tri_set S -> tri_set (tri_diff S bad).
Proof.
  intros [Hc Hn]. unfold tri_diff. split.
  - apply Forall_forall. intros t [Ht _]%list_elem_of_In%filter_In.
    rewrite Forall_forall in Hc. by apply Hc, list_elem_of_In.
  - clear Hc. induction S as [|x S IH]; simpl; [apply NoDup_nil_2|].
    apply NoDup_cons in Hn as [Hx Hn]. destruct (negb _); simpl; [|auto].
    apply NoDup_cons. split; [|auto].
    intros (t & E & Ht)%list_elem_of_fmap.
    apply list_elem_of_In, filter_In in Ht as [Ht _].
    apply Hx, list_elem_of_fmap. exists t. by rewrite list_elem_of_In.
Qed.

Lemma elem_of_tri_diff_iff S bad t :
  t ∈ tri_diff S bad <-> t ∈ S /\ tri_in t bad = false.
Proof.
  unfold tri_diff. rewrite !list_elem_of_In, filter_In, negb_true_iff. tauto.
Qed.

Lemma tri_set_retriangulate S pb p :
  tri_set S -> tri_set (retriangulate S pb p).
Proof.
  unfold retriangulate. revert S.
  induction pb as [|e pb IH]; intros S HS; simpl; [done|].
  apply IH, tri_set_tri_add; [|done]. by eexists _, _, _.
Qed.

Lemma elem_of_retriangulate_iff S pb p t :
  tri_set S ->
  t ∈ retriangulate S pb p <->
  t ∈ S \/ exists e, e ∈ pb /\ t = mkTriangle (v1 e) (v2 e) p.
Proof.
  intros HS. split; [apply elem_of_retriangulate_edge|].
  unfold retriangulate. revert S HS.
  induction pb as [|e pb IH]; intros S HS; simpl.
  { intros [Ht|(e & He & _)]; [done|by apply elem_of_nil in He]. }
  assert (con (mkTriangle (v1 e) (v2 e) p)) as Hcon by by eexists _, _, _.
  intros Hcase. apply IH; [by apply tri_set_tri_add|].
  clear IH.
  destruct HS as [Hc Hn].
  destruct Hcase as [Ht|(e' & [->|He']%elem_of_cons & ->)].
  - left. apply elem_of_tri_add_iff; auto.
  - left. apply elem_of_tri_add_iff; auto.
  - right. eauto.
Qed.

Lemma occurrences_Permutation {A} `{EqDecision A} (x : A) (l l' : list A) :
  l ≡ₚ l' -> occurrences x l = occurrences x l'.
Proof. intros HP. unfold occurrences. by rewrite HP. Qed.

Lemma elem_of_boundary_parity bad (e : Edge F) :
  e ∈ find_polygon_boundary bad <->
  Nat.odd (occurrences e (flat_map tri_edges bad)) = true.
Proof.
  rewrite find_polygon_boundary_flat, fold_toggle_parity.
  rewrite bool_decide_eq_false_2 by apply not_elem_of_nil. simpl. tauto.
Qed.

Lemma flat_map_Permutation {A B} (f : A -> list B) (l l' : list A) :
  l ≡ₚ l' -> flat_map f l ≡ₚ flat_map f l'.
Proof.
  induction 1 as [|x l l' _ IH|x y l|l1 l2 l3 _ IH1 _ IH2]; simpl.
  - done.
  - by rewrite IH.
  - rewrite !app_assoc. f_equiv. apply Permutation_app_comm.
  - by rewrite IH1.
Qed.

Lemma find_polygon_boundary_Permutation bad bad' :
  bad ≡ₚ bad' -> find_polygon_boundary bad ≡ₚ find_polygon_boundary bad'.
Proof.
  intros HP. apply NoDup_Permutation.
  - rewrite find_polygon_boundary_flat. apply NoDup_fold_toggle, NoDup_nil_2.
  - rewrite find_polygon_boundary_flat. apply NoDup_fold_toggle, NoDup_nil_2.
  - intros e. rewrite !elem_of_boundary_parity.
    by rewrite (occurrences_Permutation e _ _ (flat_map_Permutation tri_edges _ _ HP)).
Qed.

Lemma find_bad_triangles_Permutation S S' p :
  S ≡ₚ S' -> tri_set S ->
  find_bad_triangles S p ≡ₚ find_bad_triangles S' p.
Proof.
  intros HP HS. pose proof (tri_set_perm _ _ HP HS) as HS'.
  apply NoDup_Permutation.
  - by apply tri_set_NoDup, tri_set_find_bad.
  - by apply tri_set_NoDup, tri_set_find_bad.
  - intros t. rewrite !elem_of_find_bad_iff by done. by rewrite HP.
Qed.

(** The members of the triangulation after a step, whatever the orders
    of iteration. *)
Lemma insert_point_any_order_members S p R :
  tri_set S -> insert_point_any_order S p R ->
  tri_set R /\
  forall t, t ∈ R <->
    (t ∈ S /\ point_in_circumcircle t p = false) \/
    (exists e, Nat.odd (occurrences e
                 (flat_map tri_edges (find_bad_triangles S p))) = true /\
               t = mkTriangle (v1 e) (v2 e) p).
Proof.
  intros HS (S1 & S2 & bad & pb & H1 & H2 & Hbad & Hpb & HR).
  symmetry in H1, H2.
  pose proof (tri_set_perm _ _ H1 HS) as HS1.
  pose proof (tri_set_perm _ _ H2 HS) as HS2.
  assert (bad ≡ₚ find_bad_triangles S p) as Hbad'.
  { rewrite Hbad. symmetry. by apply find_bad_triangles_Permutation. }
  assert (tri_set bad) as Hb.
  { apply (tri_set_perm (find_bad_triangles S p)); [done|].
    by apply tri_set_find_bad. }
  assert (tri_set (retriangulate (tri_diff S2 bad) pb p)) as HR0
    by by apply tri_set_retriangulate, tri_set_tri_diff.
  split; [by apply (tri_set_perm _ _ (symmetry HR))|].
  intros t. rewrite HR, elem_of_retriangulate_iff by by apply tri_set_tri_diff.
  rewrite elem_of_tri_diff_iff, <- H2.
  assert (forall e, e ∈ pb <->
            Nat.odd (occurrences e
              (flat_map tri_edges (find_bad_triangles S p))) = true) as Hpb'.
  { intros e. rewrite Hpb, elem_of_boundary_parity.
    by rewrite (occurrences_Permutation e _ _
                  (flat_map_Permutation tri_edges _ _ Hbad')). }
  assert (forall t, t ∈ S ->
            tri_in t bad = false <-> point_in_circumcircle t p = false) as Hd.
  { intros t' Ht'. pose proof (proj1 HS) as Hc. rewrite Forall_forall in Hc.
    rewrite <- !not_true_iff_false.
    rewrite (tri_in_con t' bad (proj1 Hb) (Hc t' Ht')), Hbad'.
    rewrite elem_of_find_bad_iff by done. tauto. }
  split.
  - intros [[Ht Hn]|(e & He & ->)].
    + left. split; [done|]. by apply Hd.
    + right. exists e. split; [by apply Hpb'|done].
  - intros [[Ht Hn]|(e & He & ->)].
    + left. split; [done|]. by apply Hd.
    + right. exists e. split; [by apply Hpb'|done].
Qed.

Lemma insert_point_any_order_refl S p :
  insert_point_any_order S p (insert_point S p).
Proof. by exists S, S, (find_bad_triangles S p), (find_polygon_boundary (find_bad_triangles S p)). Qed.

(** One insertion gives the same set of triangles whatever the order in
    which the triangulation, the bad triangles and the boundary edges are
    iterated: any such result is a reordering of the one computed here,
    and again a set of constructed triangles. *)
Lemma insert_point_any_order_spec S p R :
  tri_set S -> insert_point_any_order S p R ->
  R ≡ₚ insert_point S p /\ tri_set R.
Proof.
  intros HS HR.
  destruct (insert_point_any_order_members S p R HS HR) as [HtR HmR].
  destruct (insert_point_any_order_members S p _ HS
              (insert_point_any_order_refl S p)) as [Ht0 Hm0].
  split; [|done]. apply NoDup_Permutation; [by apply tri_set_NoDup..|].
  intros t. by rewrite HmR, Hm0.
Qed.

Lemma tri_set_insert_point S p : tri_set S -> tri_set (insert_point S p).
Proof.
  intros HS. unfold insert_point.
  by apply tri_set_retriangulate, tri_set_tri_diff.
Qed.

Lemma insert_point_Permutation S S' p :
  S ≡ₚ S' -> tri_set S -> insert_point S' p ≡ₚ insert_point S p.
Proof.
  intros HP HS. apply insert_point_any_order_spec; [done|].
  exists S', S', (find_bad_triangles S' p),
    (find_polygon_boundary (find_bad_triangles S' p)).
  by split_and!.
Qed.

Lemma insert_all_Permutation pts S S' :
  S ≡ₚ S' -> tri_set S -> insert_all pts S' ≡ₚ insert_all pts S.
Proof.
  unfold insert_all. revert S S'.
  induction pts as [|p pts IH]; intros S S' HP HS; simpl; [done|].
  apply IH; [|by apply tri_set_insert_point].
  symmetry. by apply insert_point_Permutation.
Qed.

Lemma tri_set_insert_all pts S : tri_set S -> tri_set (insert_all pts S).
Proof.
  unfold insert_all. revert S.
  induction pts as [|p pts IH]; intros S HS; simpl; [done|].
  by apply IH, tri_set_insert_point.
Qed.

Lemma insert_all_any_order_spec pts S R :
  tri_set S -> insert_all_any_order pts S R ->
  R ≡ₚ insert_all pts S /\ tri_set R.
Proof.
  intros HS HR. induction HR as [S R HP|p pts S R R' Hstep _ IH].
  - split; [done|]. by apply (tri_set_perm S).
  - destruct (insert_point_any_order_spec S p R HS Hstep) as [HP HtR].
    destruct (IH HtR) as [HP' HtR']. split; [|done].
    rewrite HP'. change (insert_all (p :: pts) S)
      with (insert_all pts (insert_point S p)).
    apply insert_all_Permutation; [by symmetry|].
    by apply tri_set_insert_point.
Qed.

Lemma List_filter_Permutation {A} (f : A -> bool) (l l' : list A) :
  l ≡ₚ l' -> List.filter f l ≡ₚ List.filter f l'.
Proof.
  induction 1 as [|x l l' _ IH|x y l|l1 l2 l3 _ IH1 _ IH2]; simpl.
  - done.
  - destruct (f x); by rewrite IH.
  - destruct (f x), (f y); try done. apply perm_swap.
  - by rewrite IH1.
Qed.

(** The run computed here is one of the runs in any order, and so is
    every reordering of its result. *)
Lemma insert_all_any_order_refl pts S R :
  R ≡ₚ insert_all pts S -> insert_all_any_order pts S R.
Proof.
  unfold insert_all. revert S. induction pts as [|p pts IH]; intros S HR.
  - by apply any_order_nil.
  - apply any_order_cons with (insert_point S p);
      [apply insert_point_any_order_refl|by apply IH].
Qed.

(** X5.  The triangulation that a run returns does not depend on the
    order in which CPython iterates the sets: whatever these orders at
    every step of the loop over the points, the triangles left after the
    cleanup are those computed here. *)
Theorem run_order_independent
    (pts : list (F * F)) (bw : BowyerWatson F) st sv R :
  run (BowyerWatson_init pts) = ok bw ->
  _create_super_triangle (points bw) = ok (st, sv) ->
  insert_all_any_order (points bw) [st] R ->
  List.filter (fun tri => negb (has_super_vertex sv tri)) R
  ≡ₚ triangulation bw.
Proof.
  intros (st' & sv' & Hst & Hpts & Htri & _)%run_inversion Hst2 HR.
  rewrite Hpts, Hst in Hst2. injection Hst2 as <- <-.
  rewrite Htri, <- Hpts. apply List_filter_Permutation.
  change (tri_add st' []) with [st'].
  apply insert_all_any_order_spec; [|done].
  apply create_super_triangle_inversion in Hst as (a & b & c & -> & _).
  split.
  - apply Forall_singleton. by exists a, b, c.
  - apply NoDup_singleton.
Qed.
End OrderIndependence.

Section DualOrder.
Context {F : Type} {NF : Num F}.
Implicit Types (T : list (Triangle F)) (e : Edge F).

Lemma well_formed_perm T T' : T ≡ₚ T' -> well_formed T -> well_formed T'.
Proof. intros HP [H1 H2]. split; by rewrite <- HP. Qed.

Lemma incident_Permutation e T T' :
  T ≡ₚ T' -> incident e T ≡ₚ incident e T'.
Proof. intros HP. unfold incident. by rewrite HP. Qed.

Lemma delaunay_edges_Permutation T T' :
  T ≡ₚ T' -> delaunay_edges T ≡ₚ delaunay_edges T'.
Proof.
  intros HP. unfold delaunay_edges.
  apply NoDup_Permutation; [apply NoDup_distinct..|].
  intros e. rewrite !elem_of_distinct.
  by rewrite (flat_map_Permutation tri_edges _ _ HP).
Qed.

Lemma dual_edges_Permutation T T' :
  T ≡ₚ T' -> dual_edges T ≡ₚ dual_edges T'.
Proof.
  intros HP. unfold dual_edges.
  rewrite (delaunay_edges_Permutation _ _ HP).
  erewrite list_filter_iff; [reflexivity|]. intros e.
  by rewrite (incident_Permutation e _ _ HP).
Qed.

(** X6.  The Voronoi edges do not depend on the order in which the final
    triangulation is iterated, up to their order and orientation: a
    reordered triangulation gives as many Voronoi edges, each of them an
    edge of the original derivation or the reverse of one. *)
Theorem derive_voronoi_order_independent T T' :
  well_formed T -> T ≡ₚ T' ->
  length (_derive_voronoi_diagram T') = length (_derive_voronoi_diagram T) /\
  forall p1 p2,
    (p1, p2) ∈ _derive_voronoi_diagram T' ->
    (p1, p2) ∈ _derive_voronoi_diagram T \/
    (p2, p1) ∈ _derive_voronoi_diagram T.
Proof.
  intros Hwf HP. pose proof (well_formed_perm _ _ HP Hwf) as Hwf'.
  rewrite !derive_voronoi_refines by (apply Hwf || apply Hwf').
  split.
  - rewrite !length_voronoiDual_spec.
    by rewrite (dual_edges_Permutation _ _ HP).
  - intros p1 p2 (e & t1 & t2 & He & Hi & H1 & H2)%elem_of_voronoiDual_spec.
    rewrite <- (dual_edges_Permutation _ _ HP) in He.
    pose proof (incident_Permutation e _ _ HP) as Hip. rewrite Hi in Hip.
    assert (incident e T = [t1; t2] \/ incident e T = [t2; t1]) as [E|E].
    { destruct (incident e T) as [|x [|y [|z l]]];
        try (apply Permutation_length in Hip; discriminate).
      apply Permutation_length_2 in Hip as [[-> ->]|[-> ->]]; auto. }
    + left. apply elem_of_voronoiDual_spec. by exists e, t1, t2.
    + right. apply elem_of_voronoiDual_spec. by exists e, t2, t1.
Qed.
End DualOrder.


(** ** The circumcircle, in exact arithmetic *)

Section ExactCircleProperties.
Import Exact.
Local Open Scope Qc_scope.









End ExactCircleProperties.


(** ** Inputs too small for the tolerance, in exact arithmetic *)

Section TinyInput.
Import Exact.
Local Open Scope Qc_scope.
Implicit Types (x y m : Qc) (xs : list Qc).














End TinyInput.

(** ** The detailed variant *)

Section DetailedProperties.
Context {F : Type} {NF : Num F}.
Implicit Types (T t : Triangle F) (S : list (Triangle F)) (p v : Point F).




Lemma detailed_run_inversion (self bw : Detailed.BowyerWatsonDetailed F) :
  Detailed.run self = ok bw ->
  exists a b c sv,
    Detailed._create_super_triangle (Detailed.points self) = ok (a, b, c, sv)
    /\ Detailed.points bw = Detailed.points self
    /\ Detailed.triangulation bw =
       List.filter (fun tri => negb (has_super_vertex sv tri))
         (insert_all (Detailed.points self)
            (tri_add (mkTriangle a b c) (Detailed.triangulation self))).
Proof.
  unfold Detailed.run, bind.
  destruct (Detailed._create_super_triangle _) as [e|[[[a b] c] sv]];
    [discriminate|].
  intros [= <-]. exists a, b, c, sv. split_and!; reflexivity.
Qed.

End DetailedProperties.

Section DetailedExact.
Import Exact.
Local Open Scope Qc_scope.




End DetailedExact.

(** ** The step-by-step visualizer *)

Section TriangulacaoProperties.
Context {F : Type} {NF : Num F}.
Implicit Types (T t : Triangle F) (S : list (Triangle F)) (p v : Point F).

Lemma scan_with_circumcenters S p bad :
  Forall (fun t => is_Some (circumcenter t)) S ->
  Triangulacao.scan S p bad
  = inr (fold_left (fun bad t => if point_in_circumcircle t p
                                 then tri_add t bad else bad) S bad).
Proof.
  intros HS. revert bad. induction HS as [|t S [c Hc] _ IH]; intros bad;
    [done|].
  cbn [Triangulacao.scan fold_left]. unfold point_in_circumcircle at 2.
  rewrite Hc. apply IH.
Qed.

Lemma scan_without_circumcenter S p bad t :
  t ∈ S -> circumcenter t = None ->
  Triangulacao.scan S p bad = inl Triangulacao.AttributeError.
Proof.
  intros Ht Hc. revert bad. induction S as [|t' S IH]; intros bad;
    [by apply elem_of_nil in Ht|].
  cbn [Triangulacao.scan]. destruct (circumcenter t') as [c|] eqn:Hc'; [|done].
  apply elem_of_cons in Ht as [->|Ht]; [congruence|]. by apply IH.
Qed.

Lemma scan_total S p bad :
  Triangulacao.scan S p bad = inl Triangulacao.AttributeError \/
  exists bad', Triangulacao.scan S p bad = inr bad'.
Proof.
  revert bad. induction S as [|t S IH]; intros bad; [right; by eexists|].
  cbn [Triangulacao.scan]. destruct (circumcenter t); [apply IH|by left].
Qed.

Lemma tri_in_fold_tri_add (N : list (Triangle F)) S t :
  tri_in t S = true -> tri_in t (fold_left (fun tr t => tri_add t tr) N S) = true.
Proof.
  revert S. induction N as [|n N IH]; intros S Ht; [done|]. simpl.
  apply IH. unfold tri_add. destruct (tri_in n S); [done|].
  unfold tri_in in *. rewrite existsb_app, Ht. done.
Qed.

Lemma tri_in_snoc t S : tri_in t (S ++ [t]) = true.
Proof.
  unfold tri_in. rewrite existsb_app. simpl. unfold tri_eqb.
  rewrite bool_decide_eq_true_2 by done. by rewrite orb_true_r.
Qed.

Lemma tri_in_update S N t :
  tri_in t N = true -> tri_in t (Triangulacao.update S N) = true.
Proof.
  unfold Triangulacao.update. revert S.
  induction N as [|n N IH]; intros S Hin; [done|].
  simpl. unfold tri_in in Hin. simpl in Hin.
  apply orb_true_iff in Hin as [Hn|Hin]; [|by apply IH].
  apply tri_in_fold_tri_add. unfold tri_eqb in Hn.
  apply bool_decide_eq_true_1 in Hn.
  unfold tri_add. destruct (tri_in n S) eqn:HnS.
  - unfold tri_in, tri_eqb in *. by rewrite Hn.
  - unfold tri_in in *. rewrite existsb_app. simpl. unfold tri_eqb.
    rewrite (bool_decide_eq_true_2 _ Hn). by rewrite orb_true_r.
Qed.

Lemma update_tri_add S N t :
  Triangulacao.update S (tri_add t N) = tri_add t (Triangulacao.update S N).
Proof.
  destruct (tri_in t N) eqn:Hin.
  - transitivity (Triangulacao.update S N).
    + unfold tri_add. by rewrite Hin.
    + pose proof (tri_in_update S N t Hin) as Hu.
      unfold tri_add. by rewrite Hu.
  - transitivity (Triangulacao.update S (N ++ [t])).
    + unfold tri_add. by rewrite Hin.
    + unfold Triangulacao.update. by rewrite fold_left_app.
Qed.

(** Filling a separate set and merging it gives the list that adding the
    new triangles one by one gives. *)
Lemma update_new_triangles S (pb : list (Edge F)) p :
  Triangulacao.update S (Triangulacao.new_triangles pb p)
  = retriangulate S pb p.
Proof.
  unfold Triangulacao.new_triangles, retriangulate.
  change S with (Triangulacao.update S []) at 2.
  generalize (@nil (Triangle F)) as N.
  induction pb as [|e pb IH]; intros N; [done|].
  cbn [fold_left]. by rewrite IH, update_tri_add.
Qed.

Lemma triangulacao_insert_point S p :
  (Forall (fun t => is_Some (circumcenter t)) S /\
   Triangulacao.insert_point S p = inr (insert_point S p)) \/
  ((exists t, t ∈ S /\ circumcenter t = None) /\
   Triangulacao.insert_point S p = inl Triangulacao.AttributeError).
Proof.
  destruct (decide (Forall (fun t => is_Some (circumcenter t)) S))
    as [HS|HS].
  - left. split; [done|]. unfold Triangulacao.insert_point.
    rewrite scan_with_circumcenters by done. cbn [Triangulacao.bind].
    by rewrite update_new_triangles.
  - right. apply not_Forall_Exists, Exists_exists in HS as (t & Ht & Hc);
      [|apply _].
    assert (circumcenter t = None) as Hn.
    { destruct (circumcenter t) as [c|] eqn:E; [|done].
      destruct Hc. rewrite E. by exists c. }
    assert (t ∈ S) as Ht' by (done || by apply list_elem_of_In).
    split; [by exists t|]. unfold Triangulacao.insert_point.
    by rewrite (scan_without_circumcenter S p [] t).
Qed.

Lemma triangulacao_insert_all pts S :
  (Triangulacao.insert_all pts S = inr (insert_all pts S) /\
   forall i, (i < length pts)%nat ->
     Forall (fun t => is_Some (circumcenter t)) (insert_all (take i pts) S))
  \/
  (Triangulacao.insert_all pts S = inl Triangulacao.AttributeError /\
   exists i t, (i < length pts)%nat /\ t ∈ insert_all (take i pts) S /\
               circumcenter t = None).
Proof.
  revert S. induction pts as [|p pts IH]; intros S.
  - left. split; [done|]. simpl. lia.
  - cbn [Triangulacao.insert_all].
    destruct (triangulacao_insert_point S p) as [[HS ->]|[(t & Ht & Hc) ->]].
    + cbn [Triangulacao.bind].
      destruct (IH (insert_point S p)) as [[-> Hall]|[-> (i & t & Hi & Ht & Hc)]].
      * left. split; [done|]. intros [|i] Hi; [done|].
        apply (Hall i). simpl in Hi. lia.
      * right. split; [done|]. exists (Datatypes.S i), t.
        split_and!; [simpl; lia|done|done].
    + right. split; [done|]. exists 0%nat, t. split_and!; [simpl; lia|done..].
Qed.

(** The three ways a run of the step-by-step visualizer ends. *)
Lemma triangulacao_run_cases (pts : list (F * F)) :
  let points := map (fun q => mkPoint (fst q) (snd q)) pts in
  let self := Triangulacao.BowyerWatsonVisualizer_init pts in
  (pts = [] /\ Triangulacao.run self = inl (Triangulacao.Raised ValueError)) \/
  exists a b c sv,
    Detailed._create_super_triangle points = ok (a, b, c, sv) /\
    let start := [mkTriangle a b c] in
    ((exists i t, (i < length points)%nat /\
                  t ∈ insert_all (take i points) start /\
                  circumcenter t = None) /\
     Triangulacao.run self = inl Triangulacao.AttributeError)
    \/
    ((forall i t, (i < length points)%nat ->
                  t ∈ insert_all (take i points) start ->
                  is_Some (circumcenter t)) /\
     exists bw,
       Detailed.run (Detailed.BowyerWatsonDetailed_init pts) = ok bw /\
       Triangulacao.run self
       = inr {| Triangulacao.points := Detailed.points bw;
                Triangulacao.triangulation := Detailed.triangulation bw |}).
Proof.
  intros points self.
  destruct pts as [|q pts]; [left; by split|]. right.
  unfold Triangulacao.run, Detailed.run.
  cbn [Triangulacao.points Triangulacao.triangulation
       Triangulacao.BowyerWatsonVisualizer_init self
       Detailed.points Detailed.triangulation
       Detailed.BowyerWatsonDetailed_init].
  fold points.
  destruct (Detailed._create_super_triangle points)
    as [e|[[[a b] c] sv]] eqn:Hst.
  { unfold Detailed._create_super_triangle, points in Hst.
    cbn [map py_min py_max bind ok] in Hst. discriminate. }
  exists a, b, c, sv. split; [done|]. cbn zeta.
  change (tri_add (mkTriangle a b c) []) with [mkTriangle a b c].
  destruct (triangulacao_insert_all points [mkTriangle a b c])
    as [[-> Hall]|[-> Hex]].
  - right. split.
    + intros i t Hi Ht. specialize (Hall i Hi).
      rewrite Forall_forall in Hall. by apply Hall.
    + eexists. split; reflexivity.
  - left. by split.
Qed.

(** X11.  When the step-by-step visualizer reaches its last frame, the
    triangulation it leaves is the one the detailed variant leaves on the
    same input, and every triangle met by a scan had a circumcenter. *)
Theorem triangulacao_run_agrees
    (pts : list (F * F)) (bw : Triangulacao.BowyerWatsonVisualizer F) :
  Triangulacao.run (Triangulacao.BowyerWatsonVisualizer_init pts) = inr bw ->
  Detailed.run (Detailed.BowyerWatsonDetailed_init pts)
  = ok {| Detailed.points := Triangulacao.points bw;
          Detailed.triangulation := Triangulacao.triangulation bw |} /\
  exists a b c sv,
    Detailed._create_super_triangle (Triangulacao.points bw)
    = ok (a, b, c, sv) /\
    forall i t, (i < length (Triangulacao.points bw))%nat ->
      t ∈ insert_all (take i (Triangulacao.points bw)) [mkTriangle a b c] ->
      is_Some (circumcenter t).
Proof.
  intros Hrun.
  destruct (triangulacao_run_cases pts)
    as [[_ E]|(a & b & c & sv & Hst & [[_ E]|[Hall (bw' & Hd & E)]])];
    rewrite E in Hrun; try discriminate.
  injection Hrun as <-. destruct bw' as [ps tr].
  cbn [Triangulacao.points Triangulacao.triangulation
       Detailed.points Detailed.triangulation] in *.
  split; [done|].
  assert (ps = map (fun q => mkPoint (fst q) (snd q)) pts) as ->.
  { by apply detailed_run_inversion in Hd as (?&?&?&?&_&?&_). }
  by exists a, b, c, sv.
Qed.

End TriangulacaoProperties.

(** ** The Voronoi edges of any list of triangles *)

Section VoronoiAny.
Context {F : Type} {NF : Num F}.
Implicit Types (t : Triangle F) (T : list (Triangle F)) (e k : Edge F).

Lemma derive_voronoi_by_keys T :
  _derive_voronoi_diagram T
  = flat_map (fun k => emit (values_of k (slots T))) (delaunay_edges T).
Proof.
  unfold _derive_voronoi_diagram, delaunay_edges.
  rewrite build_edge_to_triangles_slots, fold_dict_append, map_fst_slots.
  rewrite flat_map_concat_map, map_map, <- flat_map_concat_map. reflexivity.
Qed.

Lemma elem_of_slots e t T : (e, t) ∈ slots T <-> t ∈ T /\ e ∈ tri_edges t.
Proof.
  unfold slots. rewrite list_elem_of_In, in_flat_map. split.
  - intros (t' & Ht' & Hin). apply in_map_iff in Hin as (e' & [= <- <-] & He).
    split; by apply list_elem_of_In.
  - intros [Ht He]. exists t. split; [by apply list_elem_of_In|].
    apply in_map_iff. exists e. split; [done|by apply list_elem_of_In].
Qed.

Lemma elem_of_values_of k (kvs : list (Edge F * Triangle F)) t :
  t ∈ values_of k kvs <-> (k, t) ∈ kvs.
Proof.
  unfold values_of. rewrite list_elem_of_fmap. split.
  - intros ([k' t'] & -> & [E Hin]%list_elem_of_filter). simpl in *. by subst.
  - intros Hin. exists (k, t). split; [done|]. by apply list_elem_of_filter.
Qed.

Lemma emit_cases (l : list (Triangle F)) :
  emit l = [] \/
  exists t1 t2 c1 c2, l = [t1; t2] /\ circumcenter t1 = Some c1 /\
                      circumcenter t2 = Some c2 /\ emit l = [(c1, c2)].
Proof.
  destruct l as [|t1 [|t2 [|t3 l]]]; try (by left). simpl.
  destruct (circumcenter t1) as [c1|] eqn:E1; [|by left].
  destruct (circumcenter t2) as [c2|] eqn:E2; [|by left].
  right. by exists t1, t2, c1, c2.
Qed.

Lemma elem_of_derive_voronoi T p1 p2 :
  (p1, p2) ∈ _derive_voronoi_diagram T ->
  exists e t1 t2,
    t1 ∈ T /\ t2 ∈ T /\ e ∈ tri_edges t1 /\ e ∈ tri_edges t2 /\
    circumcenter t1 = Some p1 /\ circumcenter t2 = Some p2.
Proof.
  rewrite derive_voronoi_by_keys, list_elem_of_In, in_flat_map.
  intros (k & _ & Hin).
  destruct (emit_cases (values_of k (slots T)))
    as [E|(t1 & t2 & c1 & c2 & El & H1 & H2 & E)]; rewrite E in Hin;
    [destruct Hin|].
  destruct Hin as [[= <- <-]|[]].
  assert (t1 ∈ values_of k (slots T)) as Ht1
    by (rewrite El; apply elem_of_cons; auto).
  assert (t2 ∈ values_of k (slots T)) as Ht2
    by (rewrite El, !elem_of_cons; auto).
  apply elem_of_values_of, elem_of_slots in Ht1 as [? ?].
  apply elem_of_values_of, elem_of_slots in Ht2 as [? ?].
  by exists k, t1, t2.
Qed.

Lemma length_flat_map_app {A B} (f g : A -> list B) (l : list A) :
  length (flat_map (fun x => f x ++ g x) l)
  = (length (flat_map f l) + length (flat_map g l))%nat.
Proof.
  induction l as [|x l IH]; [done|]. simpl. rewrite !length_app, IH. lia.
Qed.

Lemma length_flat_map_key (ks : list (Edge F)) e t :
  NoDup ks -> e ∈ ks ->
  length (flat_map (fun k => if bool_decide (e = k) then [t] else []) ks)
  = 1%nat.
Proof.
  induction 1 as [|k ks Hk Hnd IH]; intros He; [by apply elem_of_nil in He|].
  simpl. rewrite length_app. case_bool_decide as E.
  - subst k. simpl. f_equal.
    clear -Hk. induction ks as [|k ks IH]; [done|]. simpl.
    apply not_elem_of_cons in Hk as [Hne Hk].
    rewrite bool_decide_eq_false_2 by done. by apply IH.
  - apply elem_of_cons in He as [->|He]; [done|]. by rewrite IH.
Qed.

(** Every slot is listed under exactly one key. *)
Lemma length_values (kvs : list (Edge F * Triangle F)) :
  length (flat_map (fun k => values_of k kvs) (distinct (map fst kvs)))
  = length kvs.
Proof.
  assert (forall ks, NoDup ks -> (forall kv, kv ∈ kvs -> fst kv ∈ ks) ->
            length (flat_map (fun k => values_of k kvs) ks) = length kvs)
    as Hgen.
  { intros ks Hnd. induction kvs as [|[e t] kvs IH] using rev_ind;
      intros Hks.
    - clear. induction ks as [|k ks IH]; [done|]. simpl. by rewrite IH.
    - rewrite (flat_map_ext _ (fun k => values_of k kvs ++
                  (if bool_decide (e = k) then [t] else [])))
        by (intros k; apply values_of_snoc).
      rewrite length_flat_map_app, length_app, IH.
      + f_equal. apply length_flat_map_key; [done|].
        apply (Hks (e, t)). rewrite elem_of_app, list_elem_of_singleton. auto.
      + intros kv Hkv. apply Hks. apply elem_of_app. auto. }
  apply Hgen; [apply NoDup_distinct|].
  intros kv Hkv. apply elem_of_distinct. by apply list_elem_of_fmap_2.
Qed.

Lemma length_slots T : length (slots T) = (3 * length T)%nat.
Proof.
  unfold slots. induction T as [|t T IH]; [done|].
  cbn [flat_map]. rewrite length_app, IH, length_map. simpl. lia.
Qed.

Lemma length_emit_flat_map {A} (f : A -> list (Triangle F)) (l : list A) :
  (2 * length (flat_map (fun x => emit (f x)) l)
   <= length (flat_map f l))%nat.
Proof.
  induction l as [|x l IH]; [done|]. simpl. rewrite !length_app.
  enough (2 * length (emit (f x)) <= length (f x))%nat by lia.
  destruct (emit_cases (f x)) as [->|(?&?&?&?& -> &_&_& ->)]; simpl; lia.
Qed.

Lemma length_derive_voronoi T :
  (2 * length (_derive_voronoi_diagram T) <= 3 * length T)%nat.
Proof.
  rewrite derive_voronoi_by_keys, <- length_slots.
  unfold delaunay_edges. rewrite <- map_fst_slots.
  etrans; [apply (length_emit_flat_map (fun k => values_of k (slots T)))|].
  by rewrite length_values.
Qed.

(** X13.  Whatever the list of triangles, well formed or not, a Voronoi
    edge joins the circumcenters of two of its triangles that have an edge
    in common, and there are at most three Voronoi edges for two
    triangles. *)
Theorem voronoi_edges_of_any_triangulation T :
  (forall p1 p2,
     (p1, p2) ∈ _derive_voronoi_diagram T ->
     exists e t1 t2,
       t1 ∈ T /\ t2 ∈ T /\ e ∈ tri_edges t1 /\ e ∈ tri_edges t2 /\
       circumcenter t1 = Some p1 /\ circumcenter t2 = Some p2) /\
  (2 * length (_derive_voronoi_diagram T) <= 3 * length T)%nat.
Proof.
  split; [apply elem_of_derive_voronoi|apply length_derive_voronoi].
Qed.
End VoronoiAny.

(** ** The Voronoi stage of the visualizer *)

Section VisualizerProperties.
Context {F : Type} {NF : Num F}.
Implicit Types (t : Triangle F) (T : list (Triangle F)) (e : Edge F).




End VisualizerProperties.

(** ** Well-formed output *)

Section WellFormedOutput.
Context {F : Type} {NF : Num F}.
Implicit Types (t T : Triangle F) (S : list (Triangle F)) (p : Point F)
  (A : list (Point F)).

Lemma tri_edge_distinct t (e : Edge F) :
  NoDup (vertex_list t) -> e ∈ tri_edges t -> v1 e <> v2 e.
Proof.
  unfold tri_edges. cbn [map]. rewrite !elem_of_cons, elem_of_nil.
  unfold tri_edge, vertex, vertex_list.
  destruct (vertices t) as [[a b] c].
  cbn [Nat.modulo Nat.divmod fst snd Nat.sub].
  intros Hnd. apply NoDup_cons in Hnd as [Ha Hnd].
  apply NoDup_cons in Hnd as [Hb _].
  apply not_elem_of_cons in Ha as [Hab Ha].
  apply not_elem_of_cons in Ha as [Hac _].
  apply not_elem_of_cons in Hb as [Hbc _].
  intros [E|[E|[E|[]]]]; symmetry in E;
    apply tri_edge_cases in E as [-> | ->]; cbn [v1 v2]; congruence.
Qed.

Lemma insert_point_distinct A S p :
  p ∉ A ->
  (forall t, t ∈ S -> constructed_from A t /\ NoDup (vertex_list t)) ->
  forall t, t ∈ insert_point S p ->
    constructed_from (A ++ [p]) t /\ NoDup (vertex_list t).
Proof.
  intros Hp HS t Ht. split.
  { apply (insert_point_constructed A S p); [|done]. intros. by apply HS. }
  apply elem_of_retriangulate_edge in Ht as [Ht|(e & He & ->)].
  - apply elem_of_tri_diff in Ht as [Ht _]. by apply HS.
  - apply elem_of_find_polygon_boundary in He as (t0 & Ht0 & He).
    apply elem_of_find_bad_triangles in Ht0 as [Ht0 _].
    destruct (HS t0 Ht0) as [Hc Hnd].
    pose proof (tri_edge_distinct _ _ Hnd He) as Hne.
    apply tri_edge_endpoints in He as [H1 H2].
    pose proof (constructed_from_vertices _ _ _ Hc H1) as HA1.
    pose proof (constructed_from_vertices _ _ _ Hc H2) as HA2.
    rewrite vertex_list_mkTriangle.
    apply NoDup_cons. split.
    + rewrite !elem_of_cons, elem_of_nil. intros [?|[E|[]]]; [done|].
      apply Hp. by rewrite <- E.
    + apply NoDup_cons. split; [|apply NoDup_singleton].
      rewrite list_elem_of_singleton. intros E. apply Hp. by rewrite <- E.
Qed.

Lemma insert_all_distinct pts A S :
  NoDup (A ++ pts) ->
  (forall t, t ∈ S -> constructed_from A t /\ NoDup (vertex_list t)) ->
  forall t, t ∈ insert_all pts S -> NoDup (vertex_list t).
Proof.
  unfold insert_all. revert A S.
  induction pts as [|p pts IH]; intros A S Hnd HS t; simpl.
  - intros Ht. by apply HS.
  - apply (IH (A ++ [p])).
    + by rewrite <- app_assoc.
    + apply insert_point_distinct; [|done].
      apply NoDup_app in Hnd as (_ & Hd & _). intros Hin.
      apply (Hd p Hin). apply elem_of_cons. auto.
Qed.

Lemma NoDup_map_filter {X Y} (f : X -> Y) (g : X -> bool) (l : list X) :
  NoDup (map f l) -> NoDup (map f (List.filter g l)).
Proof.
  induction l as [|x l IH]; simpl; [done|]. intros [Hx Hn]%NoDup_cons.
  destruct (g x); simpl; [|auto]. apply NoDup_cons. split; [|auto].
  intros (y & E & Hy)%list_elem_of_fmap.
  apply list_elem_of_In, filter_In in Hy as [Hy _].
  apply Hx, list_elem_of_fmap. exists y. by rewrite list_elem_of_In.
Qed.

Lemma cleaned_insertion_well_formed (pts sv : list (Point F)) a b c :
  NoDup ([a; b; c] ++ pts) ->
  well_formed (List.filter (fun tri => negb (has_super_vertex sv tri))
                 (insert_all pts (tri_add (mkTriangle a b c) []))).
Proof.
  intros Hnd. split.
  - apply Forall_forall. intros t [Ht _]%list_elem_of_In%filter_In.
    apply list_elem_of_In in Ht.
    apply (insert_all_distinct pts [a; b; c] (tri_add (mkTriangle a b c) []));
      [done| |done].
    intros t' [->|Ht']%elem_of_tri_add; [|by apply elem_of_nil in Ht'].
    split.
    + exists a, b, c. rewrite !elem_of_cons. tauto.
    + rewrite vertex_list_mkTriangle. by apply NoDup_app in Hnd as [? _].
  - apply NoDup_map_filter.
    apply (tri_set_insert_all pts (tri_add (mkTriangle a b c) [])).
    apply tri_set_tri_add; [by exists a, b, c|apply tri_set_nil].
Qed.

Lemma run_well_formed (pts : list (F * F)) (bw : BowyerWatson F) st sv :
  run (BowyerWatson_init pts) = ok bw ->
  _create_super_triangle (points bw) = ok (st, sv) ->
  NoDup (vertex_list st ++ points bw) ->
  well_formed (triangulation bw) /\
  voronoi_edges bw = voronoiDual_spec (triangulation bw).
Proof.
  intros (st' & sv' & Hst & Hpts & Htri & Hvor)%run_inversion Hst2 Hnd.
  rewrite Hpts, Hst in Hst2. injection Hst2 as <- <-.
  apply create_super_triangle_inversion in Hst as (a & b & c & -> & _).
  rewrite vertex_list_mkTriangle, Hpts in Hnd.
  assert (well_formed (triangulation bw)) as Hwf.
  { rewrite Htri. by apply cleaned_insertion_well_formed. }
  split; [done|]. rewrite Hvor. cbn [voronoi_edges BowyerWatson_init app].
  apply derive_voronoi_refines, Hwf.
Qed.

(** X15.  When the input points are pairwise distinct and differ from the
    three vertices of the super-triangle, themselves distinct, the output
    triangulation is well formed: every triangle has three distinct
    vertices and no triangle occurs twice.  The Voronoi edges returned are
    then the dual of the output triangulation, one for every edge shared
    by exactly two triangles that both have a circumcenter. *)
Theorem run_output_well_formed
    (pts : list (F * F)) (bw : BowyerWatson F) st sv :
  run (BowyerWatson_init pts) = ok bw ->
  _create_super_triangle (points bw) = ok (st, sv) ->
  NoDup (vertex_list st ++ points bw) ->
  well_formed (triangulation bw) /\
  voronoi_edges bw
  = flat_map (voronoi_edge_of (triangulation bw))
             (delaunay_edges (triangulation bw)) /\
  length (voronoi_edges bw) = length (dual_edges (triangulation bw)).
Proof.
  intros Hrun Hst Hnd.
  destruct (run_well_formed pts bw st sv Hrun Hst Hnd) as [Hwf Hv].
  split_and!; [done|done|]. rewrite Hv. apply length_voronoiDual_spec.
Qed.
End WellFormedOutput.

Section WellFormedExact.
Import Exact.
Local Open Scope Qc_scope.







End WellFormedExact.

(** ** The order of the vertices given to the constructor *)

Section VertexOrder.
Context {F : Type} {NF : Num F}.
Implicit Types (a b c p q r : Point F).

(** The laws of a strict total order, for [<] on coordinates. *)
Hypothesis flt_asym : forall x y : F, flt x y = true -> flt y x = false.
Hypothesis flt_trans :
  forall x y z : F, flt x y = true -> flt y z = true -> flt x z = true.
Hypothesis flt_total :
  forall x y : F, flt x y = false -> flt y x = false -> x = y.









End VertexOrder.

Section VertexOrderExact.
Import Exact.
Local Open Scope Qc_scope.





End VertexOrderExact.

(** ** A site given twice in a row *)

Section DuplicateSite.
Context {F : Type} {NF : Num F}.
Local Open Scope num_scope.




End DuplicateSite.

Section DuplicateSiteExact.
Import Exact.
Local Open Scope Qc_scope.






End DuplicateSiteExact.

(** ** Examples *)

Section Examples.
Import B64 Scenario Example.

Ltac by_computation := apply (bool_decide_unpack _); vm_compute; exact I.

Lemma no_super_vertex_in_output_witness :
  run (BowyerWatson_init square) = ok square_output /\
  _create_super_triangle (points square_output)
  = ok (square_super, square_super_vertices) /\
  square_lower ∈ triangulation square_output /\
  P 2 0 ∈ vertex_list square_lower /\
  (P 2 0 ∉ square_super_vertices) /\ (P 2 0 ∉ vertex_list square_super).
Proof.
  assert (run (BowyerWatson_init square) = ok square_output) as H1
    by (vm_compute; reflexivity).
  assert (_create_super_triangle (points square_output)
          = ok (square_super, square_super_vertices)) as H2
    by (vm_compute; reflexivity).
  assert (square_lower ∈ triangulation square_output) as H3
    by by_computation.
  assert (P 2 0 ∈ vertex_list square_lower) as H4 by by_computation.
  split_and!; try assumption;
    apply (no_super_vertex_in_output square square_output square_super
             square_super_vertices square_lower (P 2 0) H1 H2 H3 H4).
Defined.

Lemma output_triangles_from_input_witness :
  run (BowyerWatson_init square) = ok square_output /\
  square_lower ∈ triangulation square_output /\
  (forall v, v ∈ vertex_list square_lower -> v ∈ points square_output) /\
  (circumcenter square_lower, circumradius_sq square_lower)
  = _calculate_circumcircle (vertices square_lower).
Proof.
  assert (run (BowyerWatson_init square) = ok square_output) as H1
    by (vm_compute; reflexivity).
  assert (square_lower ∈ triangulation square_output) as H2
    by by_computation.
  split_and!; try assumption;
    apply (output_triangles_from_input square square_output square_lower
             H1 H2).
Defined.

Lemma insert_point_without_bad_triangle_witness :
  (forall t, t ∈ [flat] -> point_in_circumcircle t (P 1 1) = false) /\
  insert_point [flat] (P 1 1) = [flat].
Proof.
  assert (forall t, t ∈ [flat] -> point_in_circumcircle t (P 1 1) = false)
    as H.
  { intros t Ht. apply list_elem_of_singleton in Ht. rewrite Ht.
    vm_compute. reflexivity. }
  split; [exact H|].
  apply (insert_point_without_bad_triangle [flat] (P 1 1) H).
Defined.

Lemma run_with_degenerate_super_triangle_witness :
  _create_super_triangle (points (BowyerWatson_init tiny))
  = ok (tiny_super, tiny_super_vertices) /\
  circumcenter tiny_super = None /\
  run (BowyerWatson_init tiny)
  = ok {| points := points (BowyerWatson_init tiny);
          triangulation := []; voronoi_edges := [] |}.
Proof.
  assert (_create_super_triangle (points (BowyerWatson_init tiny))
          = ok (tiny_super, tiny_super_vertices)) as H1
    by (vm_compute; reflexivity).
  assert (circumcenter tiny_super = None) as H2 by (vm_compute; reflexivity).
  split_and!; try assumption.
  apply (run_with_degenerate_super_triangle tiny tiny_super
           tiny_super_vertices H1 H2).
Defined.

Lemma run_order_independent_witness :
  let R := rev (insert_all (points square_output) [square_super]) in
  run (BowyerWatson_init square) = ok square_output /\
  _create_super_triangle (points square_output)
  = ok (square_super, square_super_vertices) /\
  insert_all_any_order (points square_output) [square_super] R /\
  List.filter (fun tri => negb (has_super_vertex square_super_vertices tri)) R
  ≡ₚ triangulation square_output.
Proof.
  intros R.
  assert (run (BowyerWatson_init square) = ok square_output) as H1
    by (vm_compute; reflexivity).
  assert (_create_super_triangle (points square_output)
          = ok (square_super, square_super_vertices)) as H2
    by (vm_compute; reflexivity).
  assert (insert_all_any_order (points square_output) [square_super] R) as H3
    by (apply insert_all_any_order_refl; unfold R; symmetry; apply Permutation_rev).
  split_and!; try assumption.
  exact (run_order_independent square square_output square_super
           square_super_vertices R H1 H2 H3).
Defined.

Lemma derive_voronoi_order_independent_witness :
  well_formed [square_lower; square_upper] /\
  [square_lower; square_upper] ≡ₚ [square_upper; square_lower] /\
  length (_derive_voronoi_diagram [square_upper; square_lower])
  = length (_derive_voronoi_diagram [square_lower; square_upper]).
Proof.
  assert (well_formed [square_lower; square_upper]) as H1 by by_computation.
  assert ([square_lower; square_upper] ≡ₚ [square_upper; square_lower]) as H2
    by apply perm_swap.
  split_and!; try assumption.
  apply (derive_voronoi_order_independent _ _ H1 H2).
Defined.

Lemma run_output_well_formed_witness :
  run (BowyerWatson_init square) = ok square_output /\
  _create_super_triangle (points square_output)
  = ok (square_super, square_super_vertices) /\
  NoDup (vertex_list square_super ++ points square_output) /\
  well_formed (triangulation square_output) /\
  length (voronoi_edges square_output)
  = length (dual_edges (triangulation square_output)).
Proof.
  assert (run (BowyerWatson_init square) = ok square_output) as H1
    by (vm_compute; reflexivity).
  assert (_create_super_triangle (points square_output)
          = ok (square_super, square_super_vertices)) as H2
    by (vm_compute; reflexivity).
  assert (NoDup (vertex_list square_super ++ points square_output)) as H3
    by by_computation.
  split_and!; try assumption;
    apply (run_output_well_formed square square_output square_super
             square_super_vertices H1 H2 H3).
Defined.


Lemma triangulacao_run_agrees_witness :
  Triangulacao.run (Triangulacao.BowyerWatsonVisualizer_init square)
  = inr square_visualized /\
  Detailed.run (Detailed.BowyerWatsonDetailed_init square)
  = ok {| Detailed.points := Triangulacao.points square_visualized;
          Detailed.triangulation :=
            Triangulacao.triangulation square_visualized |}.
Proof.
  assert (Triangulacao.run (Triangulacao.BowyerWatsonVisualizer_init square)
          = inr square_visualized) as H1 by (vm_compute; reflexivity).
  split; [exact H1|].
  apply (triangulacao_run_agrees square square_visualized H1).
Defined.


End Examples.

Section ExactExamples.
Import Exact ExactExample.
Local Open Scope Qc_scope.





End ExactExamples.
